(** * The SQL-dump parser of [merge.py]

    A shallow embedding of [parse_sql_inserts], its nested tokenizer
    [split_sql_values] and the caller [load_restaurants], together with the
    parts of Python's [str], [re] and pandas they rely on.

    Python strings are modelled as lists of characters.  A character is an
    [ascii] value read as the code point of the same number (0..255); text
    with code points above 255 is outside the model. *)

From Stdlib Require Import Ascii String DecimalString.
From Stdlib Require Import List Bool Arith Lia.
From Stdlib Require DecimalNat DecimalFacts.
Import ListNotations.

Set Implicit Arguments.

Definition str := list ascii.

(** String literals of the development. *)
Definition chars (s : string) : str := list_ascii_of_string s.

(** ** Characters *)

Module Chr.

Definition squote : ascii := "'"%char.
Definition dquote : ascii := ascii_of_nat 34.
Definition comma : ascii := ","%char.
Definition lparen : ascii := "("%char.
Definition rparen : ascii := ")"%char.
Definition semicolon : ascii := ";"%char.
Definition backtick : ascii := "`"%char.
Definition cr : ascii := ascii_of_nat 13.
Definition lf : ascii := ascii_of_nat 10.

(** [str.isspace] on one character, which is also what [\s] matches in a
    [str] pattern: TAB..CR, FS..US, SPACE, NEL and NBSP. *)
Definition is_space (c : ascii) : bool :=
  let n := nat_of_ascii c in
  ((9 <=? n) && (n <=? 13)) || ((28 <=? n) && (n <=? 32))
  || (n =? 133) || (n =? 160).

(** The test of line 72: [ch] is a single or a double quote. *)
Definition is_quote (c : ascii) : bool :=
  Ascii.eqb c squote || Ascii.eqb c dquote.

(** Simple lower-casing, as [re.IGNORECASE] folds a character. *)
Definition lower (c : ascii) : ascii :=
  let n := nat_of_ascii c in
  if ((65 <=? n) && (n <=? 90))
     || ((192 <=? n) && (n <=? 222) && negb (n =? 215))
  then ascii_of_nat (n + 32) else c.

Definition eq_nocase (a b : ascii) : bool := Ascii.eqb (lower a) (lower b).

End Chr.

(** ** The [str] methods the parser calls *)

Module Str.

Fixpoint eqb (a b : str) : bool :=
  match a, b with
  | [], [] => true
  | x :: a', y :: b' => Ascii.eqb x y && eqb a' b'
  | _, _ => false
  end.

(** [s.lstrip] for a set of characters given as a predicate. *)
Fixpoint lstrip_with (p : ascii -> bool) (s : str) : str :=
  match s with
  | c :: s' => if p c then lstrip_with p s' else s
  | [] => []
  end.

Definition rstrip_with (p : ascii -> bool) (s : str) : str :=
  rev (lstrip_with p (rev s)).

(** [s.strip]: the left end is found first, then the right end. *)
Definition strip_with (p : ascii -> bool) (s : str) : str :=
  rstrip_with p (lstrip_with p s).

(** [s.strip()] *)
Definition strip (s : str) : str := strip_with Chr.is_space s.

(** [s.strip(cs)] *)
Definition strip_chars (cs : str) (s : str) : str :=
  strip_with (fun c => existsb (Ascii.eqb c) cs) s.

(** [s.startswith(c)] and [s.endswith(c)] for a one-character [c]. *)
Definition startswith (c : ascii) (s : str) : bool :=
  match s with x :: _ => Ascii.eqb x c | [] => false end.

Definition endswith (c : ascii) (s : str) : bool :=
  match rev s with x :: _ => Ascii.eqb x c | [] => false end.

(** [s[1:-1]] *)
Definition slice_1_m1 (s : str) : str := removelast (tl s).

(** [str(n)] for a natural number. *)
Definition of_nat (n : nat) : str :=
  chars (NilZero.string_of_uint (Nat.to_uint n)).

End Str.

Arguments Str.eqb : simpl never.

(** ** The tokenizer [split_sql_values] (merge.py, lines 64-95)

    [scan] is the [while i < len(s)] loop: [s] is the text from index [i] on,
    [res], [cur], [in_quote] and [quote_char] are the loop's variables.
    [cur] holds the characters appended so far, so [''.join(cur)] is [cur]
    itself; [quote_char] is a string, empty outside quotes. *)

Fixpoint scan (res : list str) (cur : str) (in_quote : bool) (quote_char : str)
              (s : str) {struct s} : list str :=
  match s with
  | [] => res ++ [Str.strip cur]
  | ch :: rest =>
      if Chr.is_quote ch then
        if negb in_quote then
          scan res cur true [ch] rest
        else if Str.eqb [ch] quote_char then
          match rest with
          | nx :: rest' =>
              if Str.eqb [nx] quote_char
              then scan res (cur ++ quote_char) in_quote quote_char rest'
              else scan res cur false [] rest
          | [] => scan res cur false [] rest
          end
        else scan res (cur ++ [ch]) in_quote quote_char rest
      else if Ascii.eqb ch Chr.comma && negb in_quote then
        scan (res ++ [Str.strip cur]) [] in_quote quote_char rest
      else scan res (cur ++ [ch]) in_quote quote_char rest
  end.

Definition split_sql_values (s : str) : list str :=
  scan [] [] false [] s.

(** ** Regular expressions, as the backtracking matcher of [re] runs them

    A pattern is a function from a continuation to a matcher: it consumes a
    prefix of the text and hands the rest to the continuation, and tries its
    alternatives in the order [re] does when the continuation fails. *)

Module Re.

Section Matchers.
Variable R : Type.

Definition cont := str -> option R.

(** One character of a class. *)
Definition chr (p : ascii -> bool) (k : cont) : cont :=
  fun s => match s with
           | c :: s' => if p c then k s' else None
           | [] => None
           end.

(** A literal under [re.IGNORECASE]. *)
Fixpoint lit (l : str) (k : cont) : cont :=
  match l with
  | [] => k
  | c :: l' => chr (Chr.eq_nocase c) (lit l' k)
  end.

(** Greedy [p*]: the longest run first, then shorter ones. *)
Fixpoint star (p : ascii -> bool) (k : cont) (s : str) : option R :=
  match s with
  | c :: s' =>
      if p c then
        match star p k s' with
        | Some r => Some r
        | None => k s
        end
      else k s
  | [] => k []
  end.

(** Greedy [p+]. *)
Definition plus (p : ascii -> bool) (k : cont) : cont :=
  chr p (star p k).

(** Greedy [m?]: with [m] first, then without. *)
Definition opt (m : cont -> cont) (k : cont) : cont :=
  fun s => match m k s with
           | Some r => Some r
           | None => k s
           end.

(** A capturing group: the continuation receives the text [m] consumed. *)
Definition group (m : cont -> cont) (k : str -> cont) : cont :=
  fun s => m (fun rest => k (firstn (length s - length rest) s) rest) s.

End Matchers.

(** [.] under [re.DOTALL]. *)
Definition any (c : ascii) : bool := true.

(** [pattern.finditer(s)], for a matcher [m] that returns group 1 and the
    text after the match.  The search moves through the text one character
    at a time; [skip] is the number of characters of the last match that
    are still to be passed over before the search resumes. *)
Fixpoint finditer_from (m : str -> option (str * str)) (s : str) (skip : nat)
  {struct s} : list str :=
  match s with
  | [] =>
      match skip with
      | 0 => match m [] with Some (g, _) => [g] | None => [] end
      | S _ => []
      end
  | _ :: s' =>
      match skip with
      | S n => finditer_from m s' n
      | 0 =>
          match m s with
          | Some (g, rest) =>
              g :: finditer_from m s' (length s - length rest - 1)
          | None => finditer_from m s' 0
          end
      end
  end.

Definition finditer (m : str -> option (str * str)) (s : str) : list str :=
  finditer_from m s 0.

(** [re.split(pattern, s)] for a pattern without groups; [piece] is the
    text since the last match. *)
Fixpoint split_from (m : str -> option str) (s : str) (skip : nat)
  (piece : str) {struct s} : list str :=
  match s with
  | [] => [piece]
  | c :: s' =>
      match skip with
      | S n => split_from m s' n piece
      | 0 =>
          match m s with
          | Some rest =>
              piece :: split_from m s' (length s - length rest - 1) []
          | None => split_from m s' 0 (piece ++ [c])
          end
      end
  end.

Definition split (m : str -> option str) (s : str) : list str :=
  split_from m s 0 [].

End Re.

(** The pattern of line 49, with [re.IGNORECASE | re.DOTALL]:
    [INSERT\s+INTO\s+`?<table_name>`?\s+VALUES\s*(.+);] *)
Definition insert_pattern (table_name : str) : str -> option (str * str) :=
  Re.lit (chars "INSERT") (Re.plus Chr.is_space
  (Re.lit (chars "INTO") (Re.plus Chr.is_space
  (Re.opt (Re.chr (Ascii.eqb Chr.backtick))
  (Re.lit table_name
  (Re.opt (Re.chr (Ascii.eqb Chr.backtick))
  (Re.plus Chr.is_space
  (Re.lit (chars "VALUES") (Re.star Chr.is_space
  (Re.group (Re.plus Re.any)
     (fun g => Re.chr (Ascii.eqb Chr.semicolon)
                 (fun rest => Some (g, rest))))))))))))).

(** The pattern of line 59: [\),\s*\(] *)
Definition record_boundary : str -> option str :=
  Re.chr (Ascii.eqb Chr.rparen) (Re.chr (Ascii.eqb Chr.comma)
  (Re.star Chr.is_space (Re.chr (Ascii.eqb Chr.lparen) (fun rest => Some rest)))).

(** ** The record assembler (merge.py, lines 51-100) *)

(** Lines 57-61: the records of one stripped value list. *)
Definition split_records (vals : str) : list str :=
  if Str.startswith Chr.lparen vals && Str.endswith Chr.rparen vals
  then Re.split record_boundary (Str.slice_1_m1 vals)
  else [vals].

(** Line 99: [p.strip().strip(...)] with the two quote characters. *)
Definition clean_part (p : str) : str :=
  Str.strip_chars [Chr.squote; Chr.dquote] (Str.strip p).

Definition clean_record (rec : str) : list str :=
  map clean_part (split_sql_values rec).

(** The body of the loop over the matches: the records one match appends. *)
Definition records_of_match (group1 : str) : list (list str) :=
  map clean_record (split_records (Str.strip group1)).

(** [items] after the loop of lines 51-100. *)
Definition assemble_items (sql_text table_name : str) : list (list str) :=
  flat_map records_of_match (Re.finditer (insert_pattern table_name) sql_text).

(** ** Exceptions *)

Inductive exn : Type :=
| ValueError (msg : str)
| FileNotFoundError (msg : str)
| UnicodeDecodeError (msg : str)
| OSError (msg : str).

Inductive result (A : Type) : Type :=
| Ok (a : A)
| Raise (e : exn).

Arguments Ok {A} a.
Arguments Raise {A} e.

Definition bind {A B : Type} (r : result A) (f : A -> result B) : result B :=
  match r with
  | Ok a => f a
  | Raise e => Raise e
  end.

Notation "x <- r ;; k" := (bind r (fun x => k))
  (at level 61, r at next level, right associativity).

(** ** The parts of pandas the parser uses *)

Module Pd.

(** A frame of string cells: the column labels and the rows, a missing
    cell being [None]. *)
Record DataFrame : Type := { columns : list str; rows : list (list (option str)) }.

(** [pd.DataFrame()] *)
Definition empty_frame : DataFrame := {| columns := []; rows := [] |}.

(** [df.empty]: some axis has length 0. *)
Definition empty (df : DataFrame) : bool :=
  (length (columns df) =? 0) || (length (rows df) =? 0).

(** [df.shape] *)
Definition shape (df : DataFrame) : nat * nat :=
  (length (rows df), length (columns df)).

Definition width (items : list (list str)) : nat :=
  fold_right (fun r m => Nat.max (length r) m) 0 items.

Definition pad (w : nat) (r : list str) : list (option str) :=
  map Some r ++ repeat None (w - length r).

(** [pd.DataFrame(items, columns=cols)] for a list of lists: the data is as
    wide as its longest row, shorter rows are filled with missing cells,
    and the number of labels has to agree with that width. *)
Definition from_records (items : list (list str)) (cols : list str)
  : result DataFrame :=
  match items with
  | [] => Ok {| columns := cols; rows := [] |}
  | _ :: _ =>
      if length cols =? width items
      then Ok {| columns := cols; rows := map (pad (width items)) items |}
      else Raise (ValueError (chars "columns passed do not match the data"))
  end.

(** A Python dict from labels to labels, in insertion order. *)
Definition dict := list (str * str).

Fixpoint dict_set (k v : str) (d : dict) : dict :=
  match d with
  | [] => [(k, v)]
  | (k', v') :: d' =>
      if Str.eqb k k' then (k', v) :: d' else (k', v') :: dict_set k v d'
  end.

Fixpoint dict_get (k : str) (d : dict) : option str :=
  match d with
  | [] => None
  | (k', v') :: d' => if Str.eqb k k' then Some v' else dict_get k d'
  end.

(** [df.rename(columns=mapper)] *)
Definition rename (mapper : dict) (df : DataFrame) : DataFrame :=
  {| columns := map (fun c => match dict_get c mapper with
                              | Some c' => c'
                              | None => c
                              end) (columns df);
     rows := rows df |}.

End Pd.

(** ** [parse_sql_inserts] (merge.py, lines 44-107) *)

(** [max] of a sequence of numbers. *)
Definition py_max (xs : list nat) : result nat :=
  match xs with
  | [] => Raise (ValueError (chars "max() arg is an empty sequence"))
  | x :: xs' => Ok (fold_left Nat.max xs' x)
  end.

(** Line 105: the placeholder labels [col_1], [col_2], ... *)
Definition placeholder_columns (max_cols : nat) : list str :=
  map (fun i => chars "col_" ++ Str.of_nat (i + 1)) (seq 0 max_cols).

(** Lines 101-107: the table of the assembled records. *)
Definition materialize (items : list (list str)) : result Pd.DataFrame :=
  match items with
  | [] => Ok Pd.empty_frame
  | _ :: _ =>
      max_cols <- py_max (map (@length str) items) ;;
      Pd.from_records items (placeholder_columns max_cols)
  end.

Definition parse_sql_inserts (sql_text table_name : str) : result Pd.DataFrame :=
  materialize (assemble_items sql_text table_name).

(** ** Reading a file as text

    Python opens a text file with universal newlines: a carriage return
    followed by a line feed, and a carriage return alone, are read as one
    line feed. *)

Fixpoint universal_newlines (s : str) : str :=
  match s with
  | [] => []
  | c :: s' =>
      if Ascii.eqb c Chr.cr then
        Chr.lf :: match s' with
                  | d :: s'' =>
                      if Ascii.eqb d Chr.lf
                      then universal_newlines s''
                      else universal_newlines s'
                  | [] => universal_newlines s'
                  end
      else c :: universal_newlines s'
  end.

(** [path.read_text(encoding='utf-8')] for an existing path.  [stored] is the
    outcome of opening the file and decoding its bytes: the characters the
    file holds, or the error raised ([OSError], [UnicodeDecodeError]).  The
    text returned is those characters with the line ends translated. *)
Definition read_text (stored : result str) : result str :=
  decoded <- stored ;;
  Ok (universal_newlines decoded).

(** ** [load_restaurants] (merge.py, lines 110-126)

    A path argument is modelled by what the file system holds at it: [None]
    when no file exists there; otherwise, for [sql_path], the outcome of
    opening and decoding the file, and for [csv_fallback] the outcome of
    [pd.read_csv] on it, a frame or the error raised.  The outer option of
    [csv_fallback] is the argument's default [None].  The message of
    [FileNotFoundError] is given without the path it ends with. *)

Definition restaurant_columns (df : Pd.DataFrame) : Pd.dict :=
  let col i := nth i (Pd.columns df) [] in
  Pd.dict_set (col 3) (chars "rating")
    (Pd.dict_set (col 2) (chars "cuisine")
       (Pd.dict_set (col 1) (chars "restaurant_name")
          (Pd.dict_set (col 0) (chars "restaurant_id") []))).

Definition load_restaurants (sql_path : option (result str))
  (csv_fallback : option (option (result Pd.DataFrame))) : result Pd.DataFrame :=
  match csv_fallback with
  | Some (Some read_csv) =>
      df <- read_csv ;;
      Ok {| Pd.columns := map Str.strip (Pd.columns df); Pd.rows := Pd.rows df |}
  | _ =>
      match sql_path with
      | None => Raise (FileNotFoundError (chars "Restaurants SQL not found"))
      | Some stored =>
          text <- read_text stored ;;
          df <- parse_sql_inserts text (chars "restaurants") ;;
          if Pd.empty df then
            Raise (ValueError
              (chars "No INSERT INTO restaurants statements found in SQL file"))
          else if 4 <=? snd (Pd.shape df) then
            Ok (Pd.rename (restaurant_columns df) df)
          else Ok df
      end
  end.

(** ** Predicates of the statements *)

(** [q] occurs in [w]. *)
Definition occurs (q : ascii) (w : str) : bool := existsb (Ascii.eqb q) w.

(** A bare piece of text: no quote character and no comma. *)
Definition is_bare (a : str) : bool :=
  forallb (fun c => negb (Chr.is_quote c) && negb (Ascii.eqb c Chr.comma)) a.

(** [s] neither begins nor ends with a character of the class [p]. *)
Definition no_lead (p : ascii -> bool) (s : str) : Prop :=
  match s with c :: _ => p c = false | [] => True end.

Definition no_trail (p : ascii -> bool) (s : str) : Prop := no_lead p (rev s).

(** The separator between two records: close-paren, comma, white space,
    open-paren. *)
Inductive is_boundary : str -> Prop :=
| boundary_intro ws :
    forallb Chr.is_space ws = true ->
    is_boundary (Chr.rparen :: Chr.comma :: ws ++ [Chr.lparen]).

(** The pieces put back together around their separators. *)
Fixpoint glue (pieces seps : list str) : str :=
  match pieces, seps with
  | p :: pieces', sep :: seps' => p ++ sep ++ glue pieces' seps'
  | p :: _, [] => p
  | [], _ => []
  end.

(** Induction on the length of the text, for loops that advance by one or
    by two characters. *)
Lemma str_length_ind (P : str -> Prop) :
  (forall s, (forall t, length t < length s -> P t) -> P s) ->
  forall s, P s.
Proof.
  intros step s.
  assert (below : forall n t, length t < n -> P t).
  { induction n as [|n IH]; intros t Ht; [lia|].
    apply step. intros u Hu. apply IH. lia. }
  apply (below (S (length s))). lia.
Qed.

(** Two statements for the target table, and one for it followed by one for
    another table. *)
Definition two_statements : str :=
  chars "INSERT INTO restaurants VALUES (1,'A'); INSERT INTO restaurants VALUES (2,'B');".

Definition other_table_after : str :=
  chars "INSERT INTO restaurants VALUES (1,'A'); INSERT INTO users VALUES (9,'Z');".

(** The letter [a] between two double quotes on each side, and the record
    that puts this text between single quotes. *)
Definition twice_quoted : str :=
  Chr.dquote :: Chr.dquote :: chars "a" ++ [Chr.dquote; Chr.dquote].

Definition twice_quoted_record : str :=
  Chr.squote :: twice_quoted ++ [Chr.squote].

(** The input of the end-to-end scenario. *)
Definition scenario : str :=
  chars "INSERT INTO restaurants VALUES (1,'Cafe A','Cafe',4.1),(2,'Place B','Italian',3.9);".

(** Records of lengths 3, 4 and 4. *)
Definition drifting_items : list (list str) :=
  [ [chars "1"; chars "Cafe A"; chars "Cafe"];
    [chars "2"; chars "Place B"; chars "Italian"; chars "3.9"];
    [chars "3"; chars "Diner C"; chars "Grill"; chars "4.4"] ].

(** A matcher that hands the rest of the text to its continuation. *)
Definition passes (R : Type) (m : Re.cont R -> Re.cont R) : Prop :=
  forall k s r, m k s = Some r ->
                exists pre rest, s = pre ++ rest /\ k rest = Some r.

(** ** Writing a record

    The text a dump holds for a record: its fields, each either copied as it
    is or put between two quote characters with the quote characters inside
    it doubled, and commas between them. *)

Inductive field : Type :=
| Bare (a : str)
| Quoted (q : ascii) (w : str).

Fixpoint escape (q : ascii) (w : str) : str :=
  match w with
  | [] => []
  | c :: w' => if Ascii.eqb c q then q :: q :: escape q w' else c :: escape q w'
  end.

Definition render_field (f : field) : str :=
  match f with
  | Bare a => a
  | Quoted q w => q :: escape q w ++ [q]
  end.

Definition content (f : field) : str :=
  match f with
  | Bare a => a
  | Quoted _ w => w
  end.

(** A bare field holds no quote and no comma; a quoted one is quoted with a
    single or a double quote. *)
Definition field_ok (f : field) : bool :=
  match f with
  | Bare a => is_bare a
  | Quoted q _ => Chr.is_quote q
  end.

Fixpoint join (sep : str) (l : list str) : str :=
  match l with
  | [] => []
  | [x] => x
  | x :: l' => x ++ sep ++ join sep l'
  end.

Definition render_record (fs : list field) : str :=
  join [Chr.comma] (map render_field fs).

(** The number of commas of a text. *)
Definition commas (s : str) : nat := count_occ ascii_dec s Chr.comma.

(** [w] neither begins nor ends with a character of the class [p]. *)
Definition trimmed_of (p : ascii -> bool) (w : str) : bool :=
  match w with [] => true | c :: _ => negb (p c) end
  && match rev w with [] => true | c :: _ => negb (p c) end.

(** A value that the two passes leave as it is: no white space and no quote
    character at either end. *)
Definition plain_value (w : str) : bool :=
  trimmed_of Chr.is_space w && trimmed_of Chr.is_quote w.

(** ** Writing a statement

    The start of an INSERT statement as a dump may write it: the three
    keywords in any case, white space between the words, the table name in
    any case with or without a backtick on either side, and white space or
    none before the value list. *)

Record header : Type := {
  kw_insert : str; gap1 : str;
  kw_into : str; gap2 : str;
  tick1 : bool; name : str; tick2 : bool; gap3 : str;
  kw_values : str; gap4 : str
}.

(** Two texts that differ at most in the case of their letters. *)
Definition same_nocase (l t : str) : bool :=
  Str.eqb (map Chr.lower l) (map Chr.lower t).

(** Non-empty white space. *)
Definition is_gap (ws : str) : bool :=
  match ws with [] => false | _ :: _ => forallb Chr.is_space ws end.

Definition tick (b : bool) : str := if b then [Chr.backtick] else [].

(** A non-empty text whose first character is not white space. *)
Definition starts_unspaced (s : str) : bool :=
  match s with c :: _ => negb (Chr.is_space c) | [] => false end.

(** A table name that begins neither with white space nor with a backtick. *)
Definition plain_name (t : str) : bool :=
  match t with
  | c :: _ => negb (Chr.is_space c) && negb (Ascii.eqb Chr.backtick c)
  | [] => false
  end.

Definition header_ok (table_name : str) (h : header) : bool :=
  same_nocase (chars "INSERT") (kw_insert h) && is_gap (gap1 h)
  && same_nocase (chars "INTO") (kw_into h) && is_gap (gap2 h)
  && same_nocase table_name (name h) && is_gap (gap3 h)
  && same_nocase (chars "VALUES") (kw_values h)
  && forallb Chr.is_space (gap4 h).

(** The header followed by [tail]. *)
Definition header_then (h : header) (tail : str) : str :=
  kw_insert h ++ gap1 h ++ kw_into h ++ gap2 h ++ tick (tick1 h) ++ name h
  ++ tick (tick2 h) ++ gap3 h ++ kw_values h ++ gap4 h ++ tail.

(** A statement: header, value list, semicolon. *)
Definition statement (h : header) (values : str) : str :=
  header_then h (values ++ [Chr.semicolon]).

(** The usual header, [INSERT INTO restaurants VALUES ]. *)
Definition usual_header : header :=
  {| kw_insert := chars "INSERT"; gap1 := chars " ";
     kw_into := chars "INTO"; gap2 := chars " ";
     tick1 := false; name := chars "restaurants"; tick2 := false;
     gap3 := chars " "; kw_values := chars "VALUES"; gap4 := chars " " |}.

(** No letter [i], in either case. *)
Definition no_letter_i (s : str) : bool :=
  forallb (fun c => negb (Chr.eq_nocase "I"%char c)) s.

(** The labels [load_restaurants] gives to the first four columns. *)
Definition restaurant_labels : list str :=
  [chars "restaurant_id"; chars "restaurant_name"; chars "cuisine";
   chars "rating"].

(** ** Writing a dump

    One statement with the usual header whose value list holds the records,
    each between parentheses, with [),(] between them. *)

Definition render_values (rows : list (list field)) : str :=
  Chr.lparen :: join (chars "),(") (map render_record rows) ++ [Chr.rparen].

Definition render_dump (rows : list (list field)) : str :=
  statement usual_header (render_values rows).

(** The values of the rows. *)
Definition contents (rows : list (list field)) : list (list str) :=
  map (map content) rows.

(** A row that can be written and read back: it has a field, its fields are
    well formed and hold plain values, and its text holds no close-paren. *)
Definition row_ok (fs : list field) : bool :=
  match fs with [] => false | _ :: _ => true end
  && forallb field_ok fs
  && forallb (fun f => plain_value (content f)) fs
  && negb (occurs Chr.rparen (render_record fs)).

Unset Implicit Arguments.

(** * Properties of [strip] *)

Section Strip.
Variable p : ascii -> bool.

Lemma lstrip_with_split (s : str) :
  exists l, s = l ++ Str.lstrip_with p s /\ forallb p l = true.
Proof.
  induction s as [|c s IH]; simpl.
  - exists []. auto.
  - destruct (p c) eqn:E.
    + destruct IH as [l [Hs Hl]]. exists (c :: l). simpl.
      rewrite E, Hl. split; [congruence | reflexivity].
    + exists []. auto.
Qed.

Lemma lstrip_with_no_lead (s : str) : no_lead p (Str.lstrip_with p s).
Proof.
  induction s as [|c s IH]; simpl; [exact I|].
  destruct (p c) eqn:E; [exact IH | exact E].
Qed.

Lemma lstrip_with_id (s : str) : no_lead p s -> Str.lstrip_with p s = s.
Proof.
  destruct s as [|c s]; simpl; [reflexivity|].
  intros ->. reflexivity.
Qed.

Lemma forallb_rev (l : str) : forallb p l = true -> forallb p (rev l) = true.
Proof.
  rewrite !forallb_forall. intros H x Hx. apply H, in_rev, Hx.
Qed.

Lemma rstrip_with_split (s : str) :
  exists r, s = Str.rstrip_with p s ++ r /\ forallb p r = true.
Proof.
  unfold Str.rstrip_with.
  destruct (lstrip_with_split (rev s)) as [l [Hs Hl]].
  exists (rev l). split; [|apply forallb_rev, Hl].
  rewrite <- rev_app_distr, <- Hs, rev_involutive. reflexivity.
Qed.

Lemma rstrip_with_no_trail (s : str) : no_trail p (Str.rstrip_with p s).
Proof.
  unfold no_trail, Str.rstrip_with. rewrite rev_involutive.
  apply lstrip_with_no_lead.
Qed.

Lemma rstrip_with_id (s : str) : no_trail p s -> Str.rstrip_with p s = s.
Proof.
  unfold no_trail, Str.rstrip_with. intros H.
  rewrite lstrip_with_id by exact H. apply rev_involutive.
Qed.

Lemma rstrip_with_keeps_lead (s : str) :
  no_lead p s -> no_lead p (Str.rstrip_with p s).
Proof.
  intros H. destruct (rstrip_with_split s) as [r [Hs _]].
  destruct (Str.rstrip_with p s) as [|c t]; [exact I|].
  rewrite Hs in H. exact H.
Qed.

Lemma strip_with_no_lead (s : str) : no_lead p (Str.strip_with p s).
Proof. apply rstrip_with_keeps_lead, lstrip_with_no_lead. Qed.

Lemma strip_with_no_trail (s : str) : no_trail p (Str.strip_with p s).
Proof. apply rstrip_with_no_trail. Qed.

Lemma strip_with_id (s : str) :
  no_lead p s -> no_trail p s -> Str.strip_with p s = s.
Proof.
  intros Hl Ht. unfold Str.strip_with.
  rewrite lstrip_with_id by exact Hl. apply rstrip_with_id, Ht.
Qed.

Lemma strip_with_idempotent (s : str) :
  Str.strip_with p (Str.strip_with p s) = Str.strip_with p s.
Proof.
  apply strip_with_id; [apply strip_with_no_lead | apply strip_with_no_trail].
Qed.

Lemma strip_with_split (s : str) :
  exists l r, s = l ++ Str.strip_with p s ++ r
              /\ forallb p l = true /\ forallb p r = true.
Proof.
  destruct (lstrip_with_split s) as [l [Hs Hl]].
  destruct (rstrip_with_split (Str.lstrip_with p s)) as [r [Ht Hr]].
  exists l, r. unfold Str.strip_with. rewrite <- Ht. auto.
Qed.

End Strip.

Lemma strip_idempotent (s : str) : Str.strip (Str.strip s) = Str.strip s.
Proof. apply strip_with_idempotent. Qed.

(** * Properties of the tokenizer *)

Lemma str_eqb_single (a b : ascii) : Str.eqb [a] [b] = Ascii.eqb a b.
Proof. unfold Str.eqb. apply andb_true_r. Qed.

Lemma occurs_cons (q c : ascii) (w : str) :
  occurs q (c :: w) = false -> Ascii.eqb c q = false /\ occurs q w = false.
Proof.
  unfold occurs. simpl. intros H. apply orb_false_elim in H.
  destruct H as [H1 H2]. rewrite Ascii.eqb_sym. auto.
Qed.

Lemma is_bare_cons (c : ascii) (a : str) :
  is_bare (c :: a) = true ->
  Chr.is_quote c = false /\ Ascii.eqb c Chr.comma = false /\ is_bare a = true.
Proof.
  unfold is_bare. simpl. intros H.
  apply andb_true_iff in H. destruct H as [H1 H2].
  apply andb_true_iff in H1. destruct H1 as [H3 H4].
  apply negb_true_iff in H3. apply negb_true_iff in H4. auto.
Qed.

(** The fields finished so far are only ever appended to. *)
Lemma scan_res (s : str) : forall res cur in_quote quote_char,
  scan res cur in_quote quote_char s = res ++ scan [] cur in_quote quote_char s.
Proof.
  induction s as [s IH] using str_length_ind.
  intros res cur iq qc. destruct s as [|ch rest]; [reflexivity|].
  assert (IH1 : forall res cur iq qc,
    scan res cur iq qc rest = res ++ scan [] cur iq qc rest).
  { intros. apply IH. simpl. lia. }
  simpl. destruct (Chr.is_quote ch).
  - destruct (negb iq); [apply IH1|].
    destruct (Str.eqb [ch] qc); [|apply IH1].
    destruct rest as [|nx rest']; [apply IH1|].
    destruct (Str.eqb [nx] qc); [|apply IH1].
    apply IH. simpl. lia.
  - destruct (Ascii.eqb ch Chr.comma && negb iq); [|apply IH1].
    rewrite (IH1 (res ++ _)), (IH1 [Str.strip cur]), app_assoc. reflexivity.
Qed.

(** Outside quotes the value of [quote_char] does not matter. *)
Lemma scan_unquoted_any (s : str) : forall res cur quote_char,
  scan res cur false quote_char s = scan res cur false [] s.
Proof.
  induction s as [|ch rest IH]; intros res cur qc; [reflexivity|].
  simpl. destruct (Chr.is_quote ch); [reflexivity|].
  destruct (Ascii.eqb ch Chr.comma && true); apply IH.
Qed.

(** A bare piece is copied to the field in progress. *)
Lemma scan_bare (a : str) : forall res cur quote_char rest,
  is_bare a = true ->
  scan res cur false quote_char (a ++ rest)
  = scan res (cur ++ a) false quote_char rest.
Proof.
  induction a as [|c a IH]; intros res cur qc rest Ha; simpl.
  - rewrite app_nil_r. reflexivity.
  - apply is_bare_cons in Ha. destruct Ha as [Hq [Hc Ha]].
    rewrite Hq, Hc. simpl. rewrite IH by exact Ha.
    rewrite <- app_assoc. reflexivity.
Qed.

(** Inside quotes everything but the active quote character is copied. *)
Lemma scan_quoted (w : str) : forall q res cur rest,
  occurs q w = false ->
  scan res cur true [q] (w ++ rest) = scan res (cur ++ w) true [q] rest.
Proof.
  induction w as [|c w IH]; intros q res cur rest Hw; simpl.
  - rewrite app_nil_r. reflexivity.
  - apply occurs_cons in Hw. destruct Hw as [Hc Hw].
    rewrite str_eqb_single, Hc. simpl. rewrite andb_false_r.
    destruct (Chr.is_quote c); rewrite IH by exact Hw;
      rewrite <- app_assoc; reflexivity.
Qed.

Lemma scan_open (q : ascii) (res : list str) (cur quote_char rest : str) :
  Chr.is_quote q = true ->
  scan res cur false quote_char (q :: rest) = scan res cur true [q] rest.
Proof. intros Hq. simpl. rewrite Hq. reflexivity. Qed.

Lemma scan_escape (q : ascii) (res : list str) (cur rest : str) :
  Chr.is_quote q = true ->
  scan res cur true [q] (q :: q :: rest) = scan res (cur ++ [q]) true [q] rest.
Proof.
  intros Hq. simpl. rewrite Hq, str_eqb_single, Ascii.eqb_refl. reflexivity.
Qed.

Lemma scan_close (q : ascii) (res : list str) (cur rest : str) :
  Chr.is_quote q = true ->
  Str.startswith q rest = false ->
  scan res cur true [q] (q :: rest) = scan res cur false [] rest.
Proof.
  intros Hq Hr. simpl. rewrite Hq, str_eqb_single, Ascii.eqb_refl.
  destruct rest as [|nx rest']; [reflexivity|].
  simpl in Hr. rewrite str_eqb_single, Hr. reflexivity.
Qed.

Lemma scan_comma (res : list str) (cur quote_char rest : str) :
  scan res cur false quote_char (Chr.comma :: rest)
  = scan (res ++ [Str.strip cur]) [] false quote_char rest.
Proof. reflexivity. Qed.

Lemma scan_comma_quoted (res : list str) (cur quote_char rest : str) :
  scan res cur true quote_char (Chr.comma :: rest)
  = scan res (cur ++ [Chr.comma]) true quote_char rest.
Proof. reflexivity. Qed.

Lemma is_bare_startswith (q : ascii) (e rest : str) :
  Chr.is_quote q = true -> is_bare e = true ->
  Str.startswith q rest = false -> Str.startswith q (e ++ rest) = false.
Proof.
  intros Hq He Hr. destruct e as [|c e]; [exact Hr|].
  apply is_bare_cons in He. destruct He as [Hc _]. simpl.
  destruct (Ascii.eqb c q) eqn:E; [|reflexivity].
  apply Ascii.eqb_eq in E. congruence.
Qed.

(** Every field the tokenizer returns went through [strip]. *)
Lemma scan_fields_stripped (s : str) : forall res cur in_quote quote_char p,
  In p (scan res cur in_quote quote_char s) ->
  In p res \/ exists x, p = Str.strip x.
Proof.
  induction s as [s IH] using str_length_ind.
  intros res cur iq qc p. destruct s as [|ch rest].
  - simpl. intros H. apply in_app_or in H. destruct H as [H|[H|[]]]; eauto.
  - assert (IH1 : forall res cur iq qc,
      In p (scan res cur iq qc rest) -> In p res \/ exists x, p = Str.strip x).
    { intros. eapply IH; [|eassumption]. simpl. lia. }
    simpl. destruct (Chr.is_quote ch).
    + destruct (negb iq); [apply IH1|].
      destruct (Str.eqb [ch] qc); [|apply IH1].
      destruct rest as [|nx rest']; [apply IH1|].
      destruct (Str.eqb [nx] qc); [|apply IH1].
      apply IH. simpl. lia.
    + destruct (Ascii.eqb ch Chr.comma && negb iq); [|apply IH1].
      intros H. apply IH1 in H. destruct H as [H|H]; [|auto].
      apply in_app_or in H. destruct H as [H|[H|[]]]; eauto.
Qed.

Lemma split_sql_values_stripped (s p : str) :
  In p (split_sql_values s) -> Str.strip p = p.
Proof.
  intros H. apply scan_fields_stripped in H. destruct H as [[]|[x ->]].
  apply strip_idempotent.
Qed.

Lemma scan_nonempty (s : str) : forall res cur in_quote quote_char,
  scan res cur in_quote quote_char s <> [].
Proof.
  induction s as [s IH] using str_length_ind.
  intros res cur iq qc. destruct s as [|ch rest].
  - simpl. intros H. apply app_eq_nil in H. destruct H as [_ H]. discriminate.
  - assert (IH1 : forall res cur iq qc, scan res cur iq qc rest <> []).
    { intros. apply IH. simpl. lia. }
    simpl. destruct (Chr.is_quote ch).
    + destruct (negb iq); [apply IH1|].
      destruct (Str.eqb [ch] qc); [|apply IH1].
      destruct rest as [|nx rest']; [apply IH1|].
      destruct (Str.eqb [nx] qc); [|apply IH1].
      apply IH. simpl. lia.
    + destruct (Ascii.eqb ch Chr.comma && negb iq); apply IH1.
Qed.

Lemma comma_not_quote (q : ascii) (rest : str) :
  Chr.is_quote q = true -> Str.startswith q (Chr.comma :: rest) = false.
Proof.
  intros Hq. unfold Str.startswith.
  destruct (Ascii.eqb Chr.comma q) eqn:E; [|reflexivity].
  apply Ascii.eqb_eq in E. subst q. discriminate Hq.
Qed.

(** A quoted piece, from its opening quote to the character before its
    closing quote, read in the unquoted state. *)
Lemma scan_quoted_piece (q : ascii) (w : str) (res : list str)
  (cur quote_char rest : str) :
  Chr.is_quote q = true -> occurs q w = false ->
  scan res cur false quote_char (q :: w ++ rest)
  = scan res (cur ++ w) true [q] rest.
Proof.
  intros Hq Hw. rewrite scan_open by exact Hq. apply scan_quoted, Hw.
Qed.

(** * The tokenizer's claims *)

(** Claim C4.  Inside a quoted field, the active quote character followed by
    itself is an escaped quote: the scanner passes both characters and adds
    exactly one quote character to the field in progress.  A field quoted
    with [q] whose content holds one such pair comes out as one field with
    one [q] in the pair's place, and the record ['O''Brien'] tokenizes to
    the single field [O'Brien]. *)
Theorem escaped_quote_is_one_literal
  (q : ascii) (w1 w2 : str) (res : list str) (cur rest : str) :
  Chr.is_quote q = true -> occurs q w1 = false -> occurs q w2 = false ->
  scan res cur true [q] (q :: q :: rest) = scan res (cur ++ [q]) true [q] rest
  /\ split_sql_values (q :: w1 ++ q :: q :: w2 ++ [q])
     = [Str.strip (w1 ++ q :: w2)]
  /\ split_sql_values (chars "'O''Brien'") = [chars "O'Brien"].
Proof.
  intros Hq H1 H2. split; [apply scan_escape, Hq|]. split; [|reflexivity].
  unfold split_sql_values.
  rewrite scan_quoted_piece by assumption.
  rewrite scan_escape by exact Hq.
  rewrite scan_quoted by exact H2.
  rewrite scan_close by (exact Hq || reflexivity).
  simpl. rewrite <- app_assoc. reflexivity.
Qed.

Lemma escaped_quote_is_one_literal_witness :
  Chr.is_quote Chr.squote = true
  /\ split_sql_values (Chr.squote :: chars "O" ++ Chr.squote :: Chr.squote
                         :: chars "Brien" ++ [Chr.squote])
     = [Str.strip (chars "O" ++ Chr.squote :: chars "Brien")].
Proof.
  split; [reflexivity|].
  apply (escaped_quote_is_one_literal Chr.squote (chars "O") (chars "Brien")
           [] [] []); reflexivity.
Defined.

(** Claim C5.  A comma met outside quotes ends the field in progress, and a
    comma met inside quotes is added to it.  So a bare piece followed by a
    comma is a field of its own, a quoted piece keeps the commas it holds,
    and the record ['Tom, Jerry'] tokenizes to the one field [Tom, Jerry]. *)
Theorem comma_splits_only_outside_quotes
  (a w rest : str) (q : ascii) (res : list str) (cur quote_char : str) :
  is_bare a = true -> Chr.is_quote q = true -> occurs q w = false ->
  scan res cur false quote_char (Chr.comma :: rest)
  = scan (res ++ [Str.strip cur]) [] false quote_char rest
  /\ scan res cur true quote_char (Chr.comma :: rest)
     = scan res (cur ++ [Chr.comma]) true quote_char rest
  /\ split_sql_values (a ++ Chr.comma :: rest)
     = Str.strip a :: split_sql_values rest
  /\ split_sql_values (q :: w ++ [q]) = [Str.strip w]
  /\ split_sql_values (q :: w ++ q :: Chr.comma :: rest)
     = Str.strip w :: split_sql_values rest
  /\ split_sql_values (chars "'Tom, Jerry'") = [chars "Tom, Jerry"].
Proof.
  intros Ha Hq Hw. unfold split_sql_values.
  split; [reflexivity|]. split; [reflexivity|]. split.
  { rewrite scan_bare by exact Ha. rewrite scan_comma, scan_res. reflexivity. }
  split.
  { rewrite scan_quoted_piece by assumption.
    rewrite scan_close by (exact Hq || reflexivity). reflexivity. }
  split; [|reflexivity].
  rewrite scan_quoted_piece by assumption.
  rewrite scan_close by (exact Hq || apply comma_not_quote, Hq).
  rewrite scan_comma, scan_res. reflexivity.
Qed.

Lemma comma_splits_only_outside_quotes_witness :
  is_bare (chars "4.5 ") = true
  /\ split_sql_values (chars "4.5 " ++ Chr.comma :: chars "'Tom, Jerry'")
     = Str.strip (chars "4.5 ") :: split_sql_values (chars "'Tom, Jerry'")
  /\ split_sql_values (Chr.squote :: chars "Tom, Jerry" ++ [Chr.squote])
     = [Str.strip (chars "Tom, Jerry")].
Proof.
  split; [reflexivity|].
  destruct (comma_splits_only_outside_quotes (chars "4.5 ")
              (chars "Tom, Jerry") (chars "'Tom, Jerry'") Chr.squote [] [] [])
    as [_ [_ [H3 [H4 _]]]]; try reflexivity.
  split; [exact H3 | exact H4].
Defined.

(** Claim C8.  The tokenizer returns on every input and never returns zero
    fields: at the end of the text the field in progress is flushed whatever
    the quoting state is.  The empty record gives one empty field, and a
    quote that is never closed gives the text gathered up to the end. *)
Theorem tokenizer_always_flushes
  (s a w : str) (q : ascii) (res : list str) (cur : str) (in_quote : bool)
  (quote_char : str) :
  is_bare a = true -> Chr.is_quote q = true -> occurs q w = false ->
  split_sql_values s <> []
  /\ scan res cur in_quote quote_char [] = res ++ [Str.strip cur]
  /\ split_sql_values [] = [[]]
  /\ split_sql_values (a ++ q :: w) = [Str.strip (a ++ w)].
Proof.
  intros Ha Hq Hw. split; [apply scan_nonempty|].
  split; [reflexivity|]. split; [reflexivity|].
  unfold split_sql_values. rewrite scan_bare by exact Ha.
  rewrite <- (app_nil_r w) at 1.
  rewrite scan_quoted_piece by assumption. reflexivity.
Qed.

Lemma tokenizer_always_flushes_witness :
  Chr.is_quote Chr.squote = true
  /\ split_sql_values (chars "7," ++ Chr.squote :: chars "Caf") <> []
  /\ split_sql_values (chars "7 " ++ Chr.squote :: chars "Cafe, open")
     = [Str.strip (chars "7 " ++ chars "Cafe, open")].
Proof.
  split; [reflexivity|].
  destruct (tokenizer_always_flushes
              (chars "7," ++ Chr.squote :: chars "Caf")
              (chars "7 ") (chars "Cafe, open") Chr.squote [] [] false [])
    as [H1 [_ [_ H4]]]; try reflexivity.
  split; [exact H1 | exact H4].
Defined.

(** Claim C9.  A quote character met in the unquoted state opens quoted mode
    wherever it stands: in every state of the scan, whatever fields are
    already finished, whatever the field in progress holds and whatever
    text follows, the scanner enters quoted mode and adds nothing to the
    field; the quote that closes the mode adds nothing either.  So bare
    text, a quoted piece and bare text again add exactly their three
    contents to the field in progress, at any place of a record, and alone
    they make one field.  The record [ab'c,d'e] tokenizes to the single
    field [abc,de], also when fields stand before and after it. *)
Theorem quote_opens_anywhere (a w e : str) (q : ascii)
  (res : list str) (cur quote_char rest : str) :
  is_bare a = true -> is_bare e = true ->
  Chr.is_quote q = true -> occurs q w = false ->
  scan res cur false quote_char (q :: rest) = scan res cur true [q] rest
  /\ (Str.startswith q rest = false ->
      scan res cur true [q] (q :: rest) = scan res cur false [] rest)
  /\ (Str.startswith q rest = false ->
      scan res cur false quote_char (a ++ q :: w ++ q :: e ++ rest)
      = scan res (cur ++ a ++ w ++ e) false [] rest)
  /\ split_sql_values (a ++ q :: w ++ q :: e) = [Str.strip (a ++ w ++ e)]
  /\ split_sql_values (chars "ab'c,d'e") = [chars "abc,de"]
  /\ split_sql_values (chars "1,ab'c,d'e,2")
     = [chars "1"; chars "abc,de"; chars "2"].
Proof.
  intros Ha He Hq Hw.
  assert (Mid : forall res cur quote_char rest,
    Str.startswith q rest = false ->
    scan res cur false quote_char (a ++ q :: w ++ q :: e ++ rest)
    = scan res (cur ++ a ++ w ++ e) false [] rest).
  { intros res' cur' qc' rest' Hr. rewrite scan_bare by exact Ha.
    rewrite scan_quoted_piece by assumption.
    rewrite scan_close by (exact Hq || (apply is_bare_startswith; assumption)).
    rewrite scan_bare by exact He. rewrite <- !app_assoc. reflexivity. }
  split; [apply scan_open, Hq|].
  split; [intros Hr; apply scan_close; assumption|].
  split; [apply Mid|]. split; [|split; reflexivity].
  unfold split_sql_values. rewrite <- (app_nil_r e) at 1.
  rewrite Mid by reflexivity. reflexivity.
Qed.

Lemma quote_opens_anywhere_witness :
  is_bare (chars "ab") = true /\ is_bare (chars "e") = true
  /\ split_sql_values (chars "ab" ++ Chr.squote :: chars "c,d"
                         ++ Chr.squote :: chars "e")
     = [Str.strip (chars "ab" ++ chars "c,d" ++ chars "e")]
  /\ scan [chars "1"] (chars " x") false []
       (chars "ab" ++ Chr.squote :: chars "c,d" ++ Chr.squote :: chars "e"
          ++ chars ",2")
     = scan [chars "1"] (chars " x" ++ chars "ab" ++ chars "c,d" ++ chars "e")
         false [] (chars ",2").
Proof.
  split; [reflexivity|]. split; [reflexivity|].
  destruct (quote_opens_anywhere (chars "ab") (chars "c,d") (chars "e")
              Chr.squote [chars "1"] (chars " x") [] (chars ",2"))
    as [_ [_ [H3 [H4 _]]]]; try reflexivity.
  split; [exact H4 | apply H3; reflexivity].
Defined.

(** * The second pass over the fields (line 99) *)

Lemma lstrip_with_ext (p p' : ascii -> bool) (s : str) :
  (forall c, p c = p' c) -> Str.lstrip_with p s = Str.lstrip_with p' s.
Proof.
  intros E. induction s as [|c s IH]; simpl; [reflexivity|].
  rewrite <- E, IH. reflexivity.
Qed.

Lemma strip_with_ext (p p' : ascii -> bool) (s : str) :
  (forall c, p c = p' c) -> Str.strip_with p s = Str.strip_with p' s.
Proof.
  intros E. unfold Str.strip_with, Str.rstrip_with.
  rewrite (lstrip_with_ext p p' s E), (lstrip_with_ext p p' (rev _) E).
  reflexivity.
Qed.

Lemma clean_part_of_field (rec p : str) :
  In p (split_sql_values rec) ->
  clean_part p = Str.strip_with Chr.is_quote p.
Proof.
  intros H. unfold clean_part, Str.strip_chars.
  rewrite (split_sql_values_stripped _ _ H).
  apply strip_with_ext. intros c. simpl. rewrite orb_false_r. reflexivity.
Qed.

(** The field [p] loses at most one character at each end in the second
    pass: claim C3 as the specification words it. *)
Definition loses_one_layer_at_most (p : str) : Prop :=
  exists l r, Str.strip p = l ++ clean_part p ++ r
              /\ length l <= 1 /\ length r <= 1.

(** Claim C3, as stated, fails.  The tokenizer returns [twice_quoted] for
    the record [twice_quoted_record], with its four double quotes, and the
    second pass takes both of them from each end. *)
Lemma clean_part_strips_two_layers :
  In twice_quoted (split_sql_values twice_quoted_record)
  /\ clean_record twice_quoted_record = [chars "a"]
  /\ ~ loses_one_layer_at_most twice_quoted.
Proof.
  split; [left; reflexivity|]. split; [reflexivity|].
  intros [l [r [E [Hl Hr]]]].
  assert (L1 : length (Str.strip twice_quoted) = 5) by reflexivity.
  assert (L2 : length (clean_part twice_quoted) = 1) by reflexivity.
  apply (f_equal (@length ascii)) in E.
  rewrite !length_app, L1, L2 in E. lia.
Qed.

(** Claim C3, amended.  Each field of the tokenizer is already free of
    surrounding white space, and the second pass removes from it every
    leading and every trailing quote character, however many there are:
    what is cut off at either end consists of quote characters only, and
    what is placed in the record neither begins nor ends with one. *)
Theorem clean_part_strips_every_quote (rec p : str) :
  In p (split_sql_values rec) ->
  Str.strip p = p
  /\ exists l r, p = l ++ clean_part p ++ r
       /\ forallb Chr.is_quote l = true /\ forallb Chr.is_quote r = true
       /\ no_lead Chr.is_quote (clean_part p)
       /\ no_trail Chr.is_quote (clean_part p).
Proof.
  intros H. split; [apply (split_sql_values_stripped _ _ H)|].
  rewrite (clean_part_of_field _ _ H).
  destruct (strip_with_split Chr.is_quote p) as [l [r [E [Hl Hr]]]].
  exists l, r. repeat split; auto.
  - apply strip_with_no_lead.
  - apply strip_with_no_trail.
Qed.

Lemma clean_part_strips_every_quote_witness :
  In twice_quoted (split_sql_values twice_quoted_record)
  /\ Str.strip twice_quoted = twice_quoted
  /\ no_lead Chr.is_quote (clean_part twice_quoted).
Proof.
  assert (H : In twice_quoted (split_sql_values twice_quoted_record))
    by (left; reflexivity).
  split; [exact H|].
  destruct (clean_part_strips_every_quote twice_quoted_record twice_quoted H)
    as [H1 [l [r [_ [_ [_ [H2 _]]]]]]].
  split; [exact H1 | exact H2].
Defined.

(** * Properties of the matchers *)

Section ReFacts.
Variable R : Type.
Implicit Types (k : Re.cont R) (s : str) (r : R) (p : ascii -> bool).

Lemma chr_some p k s r :
  Re.chr p k s = Some r ->
  exists c rest, s = c :: rest /\ p c = true /\ k rest = Some r.
Proof.
  destruct s as [|c rest]; simpl; [discriminate|].
  destruct (p c) eqn:E; [|discriminate]. eauto.
Qed.

Lemma star_some p k s r :
  Re.star p k s = Some r ->
  exists ws rest, s = ws ++ rest /\ forallb p ws = true /\ k rest = Some r.
Proof.
  induction s as [|c s IH]; simpl; intros H.
  - exists [], []. auto.
  - destruct (p c) eqn:E; [|exists [], (c :: s); auto].
    destruct (Re.star p k s) as [r'|] eqn:S1; [|exists [], (c :: s); auto].
    destruct (IH H) as [ws [rest [Hs [Hw Hk]]]].
    exists (c :: ws), rest. simpl. rewrite E, Hw, Hs. auto.
Qed.

Lemma passes_chr p : passes (Re.chr (R:=R) p).
Proof.
  intros k s r H. destruct (chr_some _ _ _ _ H) as [c [rest [-> [_ Hk]]]].
  exists [c], rest. auto.
Qed.

Lemma passes_star p : passes (Re.star (R:=R) p).
Proof.
  intros k s r H. destruct (star_some _ _ _ _ H) as [ws [rest [-> [_ Hk]]]].
  eauto.
Qed.

Lemma passes_seq (m1 m2 : Re.cont R -> Re.cont R) :
  passes m1 -> passes m2 -> passes (fun k => m1 (m2 k)).
Proof.
  intros H1 H2 k s r H.
  destruct (H1 _ _ _ H) as [p1 [s1 [-> H']]].
  destruct (H2 _ _ _ H') as [p2 [s2 [-> Hk]]].
  exists (p1 ++ p2), s2. rewrite <- app_assoc. auto.
Qed.

Lemma passes_plus p : passes (Re.plus (R:=R) p).
Proof. apply (passes_seq _ _ (passes_chr p) (passes_star p)). Qed.

Lemma passes_lit (l : str) : passes (Re.lit (R:=R) l).
Proof.
  induction l as [|c l IH]; simpl.
  - intros k s r H. exists [], s. auto.
  - apply (passes_seq _ _ (passes_chr _) IH).
Qed.

Lemma passes_opt (m : Re.cont R -> Re.cont R) : passes m -> passes (Re.opt m).
Proof.
  intros Hm k s r H. unfold Re.opt in H.
  destruct (m k s) as [r'|] eqn:E.
  - injection H as ->. apply Hm, E.
  - exists [], s. auto.
Qed.

(** When the greedy [.*] gives up everywhere, the continuation fails on
    every suffix of the text. *)
Lemma star_any_none k s :
  Re.star Re.any k s = None -> forall y z, s = y ++ z -> k z = None.
Proof.
  induction s as [|c s IH]; simpl; intros H y z E.
  - symmetry in E. apply app_eq_nil in E. destruct E as [_ ->]. exact H.
  - destruct (Re.star Re.any k s) as [r'|] eqn:S1; [discriminate|].
    destruct y as [|c' y]; simpl in E.
    + subst z. exact H.
    + injection E as _ E. apply (IH eq_refl y z E).
Qed.

(** The greedy [.*] stops at the last place where the continuation
    succeeds. *)
Lemma star_any_greedy k s r :
  Re.star Re.any k s = Some r ->
  exists pre x, s = pre ++ x /\ k x = Some r
                /\ forall c y z, x = c :: y ++ z -> k z = None.
Proof.
  induction s as [|c s IH]; simpl; intros H.
  - exists [], []. repeat split; auto. intros; discriminate.
  - destruct (Re.star Re.any k s) as [r'|] eqn:S1.
    + destruct (IH H) as [pre [x [-> [Hk Hg]]]].
      exists (c :: pre), x. auto.
    + exists [], (c :: s). repeat split; auto.
      intros c' y z E. injection E as _ E.
      apply (star_any_none _ _ S1 y z E).
Qed.

End ReFacts.

Lemma firstn_length_app (A : Type) (a b : list A) :
  firstn (length (a ++ b) - length b) (a ++ b) = a.
Proof.
  rewrite length_app, Nat.add_sub.
  induction a as [|x a IH]; simpl; [destruct b; reflexivity|].
  rewrite IH. reflexivity.
Qed.

(** The group [(.+)] followed by the semicolon: the captured text runs up
    to the last semicolon of the text. *)
Lemma group_runs_to_last_semicolon (s g rest : str) :
  Re.group (Re.plus Re.any)
    (fun g => Re.chr (Ascii.eqb Chr.semicolon) (fun rest => Some (g, rest))) s
  = Some (g, rest) ->
  s = g ++ Chr.semicolon :: rest /\ g <> [] /\ occurs Chr.semicolon rest = false.
Proof.
  unfold Re.group, Re.plus. intros H.
  apply chr_some in H. destruct H as [c [s1 [Es [_ H]]]].
  apply star_any_greedy in H. destruct H as [pre [x [E1 [Hk Hg]]]].
  apply chr_some in Hk. destruct Hk as [c' [rest' [Ex [Hc Hk]]]].
  apply Ascii.eqb_eq in Hc. subst c'. injection Hk as Hfst Hrest.
  subst rest'.
  assert (Eg : g = c :: pre).
  { rewrite <- Hfst, Es, E1.
    change (c :: pre ++ x) with ((c :: pre) ++ x). apply firstn_length_app. }
  clear Hfst. split; [rewrite Es, E1, Ex, Eg; reflexivity|].
  split; [rewrite Eg; discriminate|].
  destruct (occurs Chr.semicolon rest) eqn:O; [|reflexivity].
  apply existsb_exists in O. destruct O as [d [Hin Hd]].
  apply Ascii.eqb_eq in Hd. subst d.
  apply in_split in Hin. destruct Hin as [y [z Er]].
  rewrite Er in Ex. specialize (Hg _ _ _ Ex).
  simpl in Hg. discriminate Hg.
Qed.

(** A match of the INSERT pattern ends at a semicolon after which the text
    holds no further semicolon. *)
Lemma insert_pattern_match (table_name s g rest : str) :
  insert_pattern table_name s = Some (g, rest) ->
  exists pre, s = pre ++ g ++ Chr.semicolon :: rest
              /\ g <> [] /\ occurs Chr.semicolon rest = false.
Proof.
  unfold insert_pattern. intros H.
  apply passes_lit in H. destruct H as [p1 [s1 [-> H]]].
  apply passes_plus in H. destruct H as [p2 [s2 [-> H]]].
  apply passes_lit in H. destruct H as [p3 [s3 [-> H]]].
  apply passes_plus in H. destruct H as [p4 [s4 [-> H]]].
  apply (passes_opt _ _ (passes_chr _ _)) in H. destruct H as [p5 [s5 [-> H]]].
  apply passes_lit in H. destruct H as [p6 [s6 [-> H]]].
  apply (passes_opt _ _ (passes_chr _ _)) in H. destruct H as [p7 [s7 [-> H]]].
  apply passes_plus in H. destruct H as [p8 [s8 [-> H]]].
  apply passes_lit in H. destruct H as [p9 [s9 [-> H]]].
  apply passes_star in H. destruct H as [p10 [s10 [-> H]]].
  apply group_runs_to_last_semicolon in H. destruct H as [-> [Hg Hr]].
  exists (p1 ++ p2 ++ p3 ++ p4 ++ p5 ++ p6 ++ p7 ++ p8 ++ p9 ++ p10).
  repeat rewrite <- app_assoc. auto.
Qed.

(** * The statement extractor *)

Lemma matched_length (A : Type) (c : A) (pre rest : list A) :
  length (c :: pre ++ rest) - length rest - 1 = length pre.
Proof.
  change (length (c :: pre ++ rest)) with (S (length (pre ++ rest))).
  rewrite length_app. lia.
Qed.

Section Finditer.
Variable m : str -> option (str * str).

Lemma finditer_from_cons (c : ascii) (s : str) :
  Re.finditer_from m (c :: s) 0
  = match m (c :: s) with
    | Some (g, rest) =>
        g :: Re.finditer_from m s (length (c :: s) - length rest - 1)
    | None => Re.finditer_from m s 0
    end.
Proof. reflexivity. Qed.

Lemma finditer_skip (pre rest : str) :
  Re.finditer_from m (pre ++ rest) (length pre) = Re.finditer_from m rest 0.
Proof. induction pre as [|c pre IH]; simpl; [reflexivity | exact IH]. Qed.

(** Every match takes at least one character and leaves a suffix. *)
Hypothesis consumes :
  forall s g rest, m s = Some (g, rest) ->
                   exists pre, pre <> [] /\ s = pre ++ rest.

(** The search loop, read off the skip counter: after a match the search
    resumes where the match ended, otherwise one character further on. *)
Lemma finditer_unfold (s : str) :
  Re.finditer m s
  = match m s with
    | Some (g, rest) => g :: Re.finditer m rest
    | None => match s with [] => [] | _ :: s' => Re.finditer m s' end
    end.
Proof.
  unfold Re.finditer. destruct s as [|c s'].
  - simpl. destruct (m []) as [[g rest]|] eqn:E; [|reflexivity].
    destruct (consumes _ _ _ E) as [pre [Hne Hs]].
    symmetry in Hs. apply app_eq_nil in Hs. destruct Hs as [-> _].
    contradiction.
  - rewrite finditer_from_cons.
    destruct (m (c :: s')) as [[g rest]|] eqn:E; [|reflexivity].
    destruct (consumes _ _ _ E) as [pre [Hne Hs]].
    destruct pre as [|c' pre']; [contradiction|].
    injection Hs as -> ->. f_equal.
    rewrite matched_length. apply finditer_skip.
Qed.

(** Matches need a semicolon and leave no semicolon behind. *)
Hypothesis to_last_semicolon :
  forall s g rest, m s = Some (g, rest) ->
    occurs Chr.semicolon s = true /\ occurs Chr.semicolon rest = false.

Lemma finditer_without_semicolon (s : str) :
  occurs Chr.semicolon s = false -> forall skip, Re.finditer_from m s skip = [].
Proof.
  induction s as [|c s IH]; intros Hs skip.
  - destruct skip; simpl; [|reflexivity].
    destruct (m []) as [[g rest]|] eqn:E; [|reflexivity].
    apply to_last_semicolon in E. destruct E as [E _]. discriminate E.
  - assert (Hs' : occurs Chr.semicolon s = false).
    { unfold occurs in *. simpl in Hs. apply orb_false_elim in Hs. tauto. }
    destruct skip as [|n]; simpl; [|apply IH, Hs'].
    destruct (m (c :: s)) as [[g rest]|] eqn:E; [|apply IH, Hs'].
    apply to_last_semicolon in E. destruct E as [E _]. congruence.
Qed.

Lemma finditer_at_most_one (s : str) :
  forall skip, length (Re.finditer_from m s skip) <= 1.
Proof.
  induction s as [|c s IH]; intros skip.
  - destruct skip; simpl; [|lia].
    destruct (m []) as [[g rest]|]; simpl; lia.
  - destruct skip as [|n]; [|simpl; apply IH].
    rewrite finditer_from_cons.
    destruct (m (c :: s)) as [[g rest]|] eqn:E; [|apply IH].
    destruct (consumes _ _ _ E) as [pre [Hne Hs]].
    destruct (to_last_semicolon _ _ _ E) as [_ Hr].
    destruct pre as [|c' pre']; [contradiction|].
    injection Hs as -> ->.
    rewrite matched_length, finditer_skip.
    rewrite (finditer_without_semicolon rest Hr). simpl. lia.
Qed.

End Finditer.

Lemma occurs_app (q : ascii) (a b : str) :
  occurs q (a ++ b) = occurs q a || occurs q b.
Proof. apply existsb_app. Qed.

Lemma insert_pattern_consumes (table_name s g rest : str) :
  insert_pattern table_name s = Some (g, rest) ->
  exists pre, pre <> [] /\ s = pre ++ rest.
Proof.
  intros H. apply insert_pattern_match in H.
  destruct H as [pre [-> [Hg _]]].
  exists (pre ++ g ++ [Chr.semicolon]). split.
  - intros E. apply app_eq_nil in E. destruct E as [_ E].
    apply app_eq_nil in E. destruct E as [_ E]. discriminate E.
  - repeat rewrite <- app_assoc. reflexivity.
Qed.

Lemma insert_pattern_semicolons (table_name s g rest : str) :
  insert_pattern table_name s = Some (g, rest) ->
  occurs Chr.semicolon s = true /\ occurs Chr.semicolon rest = false.
Proof.
  intros H. apply insert_pattern_match in H.
  destruct H as [pre [-> [_ Hr]]]. split; [|exact Hr].
  rewrite !occurs_app. unfold occurs at 3. simpl.
  rewrite !orb_true_r. reflexivity.
Qed.

(** Claim C1 does not hold of the code.  The group [(.+)] is greedy and,
    under [re.DOTALL], runs to the last semicolon of the text, so the
    extractor never returns more than one match, whatever the text holds.
    With two statements for the target table the one match spans both, and
    the assembler makes a single record of it, whose second field holds the
    text between the statements; a later statement for another table is
    swallowed in the same way. *)
Theorem greedy_group_swallows_later_statements :
  (forall table_name sql_text,
      length (Re.finditer (insert_pattern table_name) sql_text) <= 1)
  /\ Re.finditer (insert_pattern (chars "restaurants")) two_statements
     = [chars "(1,'A'); INSERT INTO restaurants VALUES (2,'B')"]
  /\ assemble_items two_statements (chars "restaurants")
     = [[chars "1"; chars "A); INSERT INTO restaurants VALUES (2"; chars "B"]]
  /\ assemble_items other_table_after (chars "restaurants")
     = [[chars "1"; chars "A); INSERT INTO users VALUES (9"; chars "Z"]].
Proof.
  split; [|repeat split; vm_compute; reflexivity].
  intros table_name sql_text. unfold Re.finditer.
  apply finditer_at_most_one.
  - apply insert_pattern_consumes.
  - apply insert_pattern_semicolons.
Qed.

(** * The record assembler *)

Lemma record_boundary_match (s rest : str) :
  record_boundary s = Some rest ->
  exists sep, is_boundary sep /\ s = sep ++ rest.
Proof.
  unfold record_boundary. intros H.
  apply chr_some in H. destruct H as [c1 [s1 [-> [H1 H]]]].
  apply chr_some in H. destruct H as [c2 [s2 [-> [H2 H]]]].
  apply star_some in H. destruct H as [ws [s3 [-> [Hw H]]]].
  apply chr_some in H. destruct H as [c3 [s4 [-> [H3 H]]]].
  injection H as ->.
  apply Ascii.eqb_eq in H1, H2, H3. subst c1 c2 c3.
  exists (Chr.rparen :: Chr.comma :: ws ++ [Chr.lparen]).
  split; [constructor; exact Hw|].
  simpl. rewrite <- app_assoc. reflexivity.
Qed.

Lemma record_boundary_needs_rparen (c : ascii) (s : str) :
  Ascii.eqb Chr.rparen c = false -> record_boundary (c :: s) = None.
Proof. intros H. unfold record_boundary, Re.chr. rewrite H. reflexivity. Qed.

Lemma record_boundary_needs_comma (s : str) :
  Str.startswith Chr.comma s = false ->
  record_boundary (Chr.rparen :: s) = None.
Proof.
  intros H. unfold record_boundary. destruct s as [|c s]; [reflexivity|].
  unfold Str.startswith in H. unfold Re.chr at 1 2.
  rewrite Ascii.eqb_refl, Ascii.eqb_sym, H. reflexivity.
Qed.

Section Split.
Variable m : str -> option str.

Lemma split_from_cons (c : ascii) (s piece : str) :
  Re.split_from m (c :: s) 0 piece
  = match m (c :: s) with
    | Some rest =>
        piece :: Re.split_from m s (length (c :: s) - length rest - 1) []
    | None => Re.split_from m s 0 (piece ++ [c])
    end.
Proof. reflexivity. Qed.

Lemma split_skip (pre rest piece : str) :
  Re.split_from m (pre ++ rest) (length pre) piece
  = Re.split_from m rest 0 piece.
Proof.
  induction pre as [|c pre IH]; simpl; [|exact IH].
  destruct rest; reflexivity.
Qed.

(** Text in which no match can start is added to the piece in progress. *)
Lemma split_unmatched (a : str) : forall rest piece,
  (forall c y z, a = y ++ c :: z -> forall t, m (c :: t) = None) ->
  Re.split_from m (a ++ rest) 0 piece = Re.split_from m rest 0 (piece ++ a).
Proof.
  induction a as [|c a IH]; intros rest piece H; simpl app.
  - rewrite app_nil_r. reflexivity.
  - rewrite split_from_cons, (H c [] a eq_refl).
    rewrite IH, <- app_assoc; [reflexivity|].
    intros c' y z E. apply (H c' (c :: y) z). rewrite E. reflexivity.
Qed.

End Split.

Lemma split_without_rparen (a rest piece : str) :
  occurs Chr.rparen a = false ->
  Re.split_from record_boundary (a ++ rest) 0 piece
  = Re.split_from record_boundary rest 0 (piece ++ a).
Proof.
  intros Ha. apply split_unmatched. intros c y z E t.
  apply record_boundary_needs_rparen.
  rewrite E, occurs_app in Ha. apply orb_false_elim in Ha.
  destruct Ha as [_ Ha]. apply occurs_cons in Ha. destruct Ha as [Hc _].
  rewrite Ascii.eqb_sym. exact Hc.
Qed.

(** The pieces of a split, glued around boundary separators, are the text. *)
Lemma split_from_glue (s : str) : forall piece,
  exists seps,
    length (Re.split_from record_boundary s 0 piece) = S (length seps)
    /\ Forall is_boundary seps
    /\ glue (Re.split_from record_boundary s 0 piece) seps = piece ++ s.
Proof.
  induction s as [s IH] using str_length_ind. intros piece.
  destruct s as [|c s'].
  - exists []. simpl. rewrite app_nil_r. auto.
  - rewrite split_from_cons.
    destruct (record_boundary (c :: s')) as [rest|] eqn:E.
    + destruct (record_boundary_match _ _ E) as [sep [Hsep Hs]].
      destruct sep as [|c' sep']; [inversion Hsep|].
      injection Hs as -> ->.
      rewrite matched_length, split_skip.
      destruct (IH rest) with (piece := @nil ascii) as [seps [Hl [Hf Hg]]].
      { simpl. rewrite length_app. lia. }
      exists ((c' :: sep') :: seps). split; [simpl; lia|].
      split; [constructor; assumption|].
      destruct (Re.split_from record_boundary rest 0 []) as [|p0 ps] eqn:Ep;
        [discriminate Hl|].
      change (glue (piece :: p0 :: ps) ((c' :: sep') :: seps))
        with (piece ++ (c' :: sep') ++ glue (p0 :: ps) seps).
      rewrite Hg. reflexivity.
    + destruct (IH s') with (piece := piece ++ [c]) as [seps [Hl [Hf Hg]]].
      { simpl. lia. }
      exists seps. rewrite <- app_assoc in Hg. auto.
Qed.

Lemma slice_parenthesized (body : str) :
  Str.slice_1_m1 (Chr.lparen :: body ++ [Chr.rparen]) = body.
Proof. unfold Str.slice_1_m1. simpl tl. apply removelast_last. Qed.

Lemma parenthesized (body : str) :
  Str.startswith Chr.lparen (Chr.lparen :: body ++ [Chr.rparen])
  && Str.endswith Chr.rparen (Chr.lparen :: body ++ [Chr.rparen]) = true.
Proof.
  unfold Str.startswith, Str.endswith.
  change (Chr.lparen :: body ++ [Chr.rparen])
    with ((Chr.lparen :: body) ++ [Chr.rparen]).
  rewrite rev_app_distr. reflexivity.
Qed.

Lemma wrapped_value_list (vals : str) :
  Str.startswith Chr.lparen vals && Str.endswith Chr.rparen vals = true ->
  exists body, vals = Chr.lparen :: body ++ [Chr.rparen].
Proof.
  intros H. apply andb_true_iff in H. destruct H as [H1 H2].
  destruct vals as [|c v]; [discriminate H1|].
  simpl in H1. apply Ascii.eqb_eq in H1. subst c.
  unfold Str.endswith in H2.
  destruct (rev (Chr.lparen :: v)) as [|d t] eqn:E; [discriminate H2|].
  apply Ascii.eqb_eq in H2. subst d.
  apply (f_equal (@rev ascii)) in E. rewrite rev_involutive in E.
  simpl in E. destruct (rev t) as [|c' t'] eqn:Et.
  - simpl in E. discriminate E.
  - simpl in E. injection E as -> ->. exists t'. reflexivity.
Qed.

Lemma space_not_rparen (ws : str) :
  forallb Chr.is_space ws = true -> occurs Chr.rparen ws = false.
Proof.
  induction ws as [|c ws IH]; intros H; [reflexivity|].
  simpl in H. apply andb_true_iff in H. destruct H as [Hc Hw].
  change (occurs Chr.rparen (c :: ws))
    with (Ascii.eqb Chr.rparen c || occurs Chr.rparen ws).
  rewrite (IH Hw), orb_false_r.
  destruct (Ascii.eqb Chr.rparen c) eqn:E; [|reflexivity].
  apply Ascii.eqb_eq in E. subst c. discriminate Hc.
Qed.

Lemma star_run (R : Type) (p : ascii -> bool) (k : Re.cont R) (ws : str)
  (c : ascii) (rest : str) (r : R) :
  forallb p ws = true -> p c = false -> k (c :: rest) = Some r ->
  Re.star p k (ws ++ c :: rest) = Some r.
Proof.
  intros Hw Hc Hk. induction ws as [|w ws IH]; simpl.
  - rewrite Hc. exact Hk.
  - simpl in Hw. apply andb_true_iff in Hw. destruct Hw as [H1 H2].
    rewrite H1, (IH H2). reflexivity.
Qed.

Lemma record_boundary_found (ws rest : str) :
  forallb Chr.is_space ws = true ->
  record_boundary (Chr.rparen :: Chr.comma :: ws ++ Chr.lparen :: rest)
  = Some rest.
Proof.
  intros Hw. unfold record_boundary. unfold Re.chr at 1 2.
  rewrite !Ascii.eqb_refl. apply star_run; [exact Hw | reflexivity|].
  unfold Re.chr. rewrite Ascii.eqb_refl. reflexivity.
Qed.

Lemma split_rparen_free (b : str) :
  occurs Chr.rparen b = false ->
  forall piece, Re.split_from record_boundary b 0 piece = [piece ++ b].
Proof.
  intros Hb piece. rewrite <- (app_nil_r b) at 1.
  rewrite split_without_rparen by exact Hb. reflexivity.
Qed.

Lemma split_records_wrapped (body : str) :
  split_records (Chr.lparen :: body ++ [Chr.rparen])
  = Re.split record_boundary body.
Proof.
  unfold split_records. rewrite parenthesized, slice_parenthesized.
  reflexivity.
Qed.

(** Claim C10.  A value list wrapped in parentheses is cut at separators of
    the form close-paren, comma, white space, open-paren and nowhere else:
    its records, put back around such separators, are the text between the
    outer parentheses.  White space after the comma is part of the
    separator, white space between the close-paren and the comma prevents
    the cut: the value list [(1,'A') ,(2,'B')] is a single record. *)
Theorem records_split_only_at_boundaries (vals a b ws : str) :
  Str.startswith Chr.lparen vals && Str.endswith Chr.rparen vals = true ->
  occurs Chr.rparen a = false -> occurs Chr.rparen b = false ->
  forallb Chr.is_space ws = true ->
  (exists seps,
      length (split_records vals) = S (length seps)
      /\ Forall is_boundary seps
      /\ glue (split_records vals) seps = Str.slice_1_m1 vals)
  /\ split_records
       (Chr.lparen :: (a ++ Chr.rparen :: Chr.comma :: ws ++ Chr.lparen :: b)
          ++ [Chr.rparen])
     = [a; b]
  /\ (ws <> [] ->
      split_records
        (Chr.lparen :: (a ++ Chr.rparen :: ws ++ Chr.comma :: Chr.lparen :: b)
           ++ [Chr.rparen])
      = [a ++ Chr.rparen :: ws ++ Chr.comma :: Chr.lparen :: b])
  /\ split_records (chars "(1,'A') ,(2,'B')") = [chars "1,'A') ,(2,'B'"].
Proof.
  intros Hv Ha Hb Hw. split; [|split; [|split; [|reflexivity]]].
  - destruct (wrapped_value_list _ Hv) as [body ->].
    rewrite split_records_wrapped, slice_parenthesized.
    destruct (split_from_glue body []) as [seps H]. exists seps. exact H.
  - rewrite split_records_wrapped. unfold Re.split.
    rewrite split_without_rparen by exact Ha.
    rewrite split_from_cons, (record_boundary_found _ b Hw).
    replace (Chr.comma :: ws ++ Chr.lparen :: b)
      with ((Chr.comma :: ws ++ [Chr.lparen]) ++ b)
      by (simpl; rewrite <- app_assoc; reflexivity).
    rewrite matched_length, split_skip, split_rparen_free by exact Hb.
    reflexivity.
  - intros Hne. destruct ws as [|w ws']; [contradiction|].
    rewrite split_records_wrapped. unfold Re.split.
    rewrite split_without_rparen by exact Ha.
    rewrite split_from_cons, record_boundary_needs_comma.
    + rewrite split_rparen_free.
      * simpl. rewrite <- app_assoc. reflexivity.
      * rewrite occurs_app, (space_not_rparen _ Hw). reflexivity || exact Hb.
    + simpl in Hw. apply andb_true_iff in Hw. destruct Hw as [Hw0 _].
      unfold Str.startswith. simpl app.
      destruct (Ascii.eqb w Chr.comma) eqn:E; [|reflexivity].
      apply Ascii.eqb_eq in E. subst w. discriminate Hw0.
Qed.

Lemma records_split_only_at_boundaries_witness :
  Str.startswith Chr.lparen (chars "(1,'A'),(2,'B')")
  && Str.endswith Chr.rparen (chars "(1,'A'),(2,'B')") = true
  /\ split_records (chars "(1,'A'), (2,'B')") = [chars "1,'A'"; chars "2,'B'"]
  /\ split_records (chars "(1,'A')  ,(2,'B')") = [chars "1,'A')  ,(2,'B'"].
Proof.
  split; [reflexivity|].
  destruct (records_split_only_at_boundaries (chars "(1,'A'),(2,'B')")
              (chars "1,'A'") (chars "2,'B'") (chars " "))
    as [_ [H2 [H3 _]]]; try reflexivity.
  split; [exact H2|].
  apply (records_split_only_at_boundaries (chars "(1,'A'),(2,'B')")
           (chars "1,'A'") (chars "2,'B'") (chars "  ")); try reflexivity.
  discriminate.
Defined.

(** * The table materializer *)

Lemma fold_left_max (xs : list nat) : forall x,
  fold_left Nat.max xs x = Nat.max x (list_max xs).
Proof.
  induction xs as [|y xs IH]; intros x; simpl.
  - rewrite Nat.max_0_r. reflexivity.
  - rewrite IH, Nat.max_assoc. reflexivity.
Qed.

Lemma py_max_is_list_max (x : nat) (xs : list nat) :
  py_max (x :: xs) = Ok (list_max (x :: xs)).
Proof. unfold py_max. rewrite fold_left_max. reflexivity. Qed.

Lemma width_is_list_max (items : list (list str)) :
  Pd.width items = list_max (map (@length str) items).
Proof.
  induction items as [|r items IH]; simpl; [reflexivity|].
  rewrite <- IH. reflexivity.
Qed.

Lemma placeholder_columns_length (n : nat) :
  length (placeholder_columns n) = n.
Proof. unfold placeholder_columns. rewrite length_map, length_seq. reflexivity. Qed.

Lemma pad_length (w : nat) (r : list str) :
  length r <= w -> length (Pd.pad w r) = w.
Proof.
  intros H. unfold Pd.pad. rewrite length_app, length_map, repeat_length. lia.
Qed.

(** What [materialize] returns for a non-empty sequence of records. *)
Lemma materialize_nonempty (items : list (list str)) :
  items <> [] ->
  materialize items
  = Ok {| Pd.columns := placeholder_columns (list_max (map (@length str) items));
          Pd.rows := map (Pd.pad (list_max (map (@length str) items))) items |}.
Proof.
  destruct items as [|r items']; [contradiction|]. intros _.
  unfold materialize. change (map (@length str) (r :: items'))
    with (length r :: map (@length str) items').
  rewrite py_max_is_list_max. unfold bind, Pd.from_records.
  rewrite placeholder_columns_length, width_is_list_max.
  change (map (@length str) (r :: items'))
    with (length r :: map (@length str) items').
  rewrite Nat.eqb_refl. reflexivity.
Qed.

(** [materialize], and so [parse_sql_inserts], never raises. *)
Lemma materialize_total (items : list (list str)) :
  exists df, materialize items = Ok df.
Proof.
  destruct items as [|r items'] eqn:E.
  - exists Pd.empty_frame. reflexivity.
  - rewrite materialize_nonempty by discriminate. eauto.
Qed.

(** Claim C6.  For a non-empty sequence of records the table has as many
    columns as the longest record has fields, whichever record that is, and
    one row per record, in order: each row is its record followed by
    missing cells up to that width, so nothing is cut or dropped.  Records
    of lengths 3, 4 and 4 give 4 columns and 3 rows. *)
Theorem table_is_as_wide_as_the_longest_record (items : list (list str)) :
  items <> [] ->
  exists df,
    materialize items = Ok df
    /\ length (Pd.columns df) = list_max (map (@length str) items)
    /\ length (Pd.rows df) = length items
    /\ (forall i r, nth_error items i = Some r ->
          nth_error (Pd.rows df) i
          = Some (map Some r
                    ++ repeat None (length (Pd.columns df) - length r)))
    /\ Forall (fun row => length row = length (Pd.columns df)) (Pd.rows df)
    /\ (items = drifting_items -> Pd.shape df = (3, 4)).
Proof.
  intros Hne. eexists. split; [apply materialize_nonempty, Hne|]. simpl.
  rewrite placeholder_columns_length, length_map.
  split; [reflexivity|]. split; [reflexivity|]. split; [|split].
  - intros i r Hi. apply (map_nth_error (Pd.pad _)), Hi.
  - apply Forall_forall. intros row Hrow.
    apply in_map_iff in Hrow. destruct Hrow as [r [<- Hr]].
    apply pad_length.
    assert (H : Forall (fun k => k <= list_max (map (@length str) items))
                  (map (@length str) items))
      by (apply list_max_le; lia).
    rewrite Forall_forall in H. apply H, in_map, Hr.
  - intros ->. reflexivity.
Qed.

Lemma table_is_as_wide_as_the_longest_record_witness :
  drifting_items <> []
  /\ exists df,
       materialize drifting_items = Ok df
       /\ length (Pd.columns df) = 4 /\ length (Pd.rows df) = 3
       /\ nth_error (Pd.rows df) 0
          = Some [Some (chars "1"); Some (chars "Cafe A"); Some (chars "Cafe");
                  None].
Proof.
  split; [discriminate|].
  destruct (table_is_as_wide_as_the_longest_record drifting_items)
    as [df [H1 [H2 [H3 [H4 _]]]]]; [discriminate|].
  exists df. split; [exact H1|]. split; [exact H2|]. split; [exact H3|].
  rewrite (H4 0 _ eq_refl), H2. reflexivity.
Defined.

(** Claim C7.  When no statement matches, [parse_sql_inserts] returns the
    empty table, which has no rows, and does not raise.  Whether that is
    fatal is the caller's decision: [load_restaurants] raises [ValueError]
    on it when it has no CSV fallback to read, and returns the fallback
    without looking at the SQL file when it has one.  The text is the one
    read from the SQL file, whatever characters the file stores it with. *)
Theorem no_match_gives_empty_table (sql_text table_name : str) :
  Re.finditer (insert_pattern table_name) sql_text = [] ->
  parse_sql_inserts sql_text table_name = Ok Pd.empty_frame
  /\ Pd.rows Pd.empty_frame = []
  /\ Pd.empty Pd.empty_frame = true
  /\ (table_name = chars "restaurants" ->
      (forall stored csv_fallback,
          universal_newlines stored = sql_text ->
          csv_fallback = None \/ csv_fallback = Some None ->
          load_restaurants (Some (Ok stored)) csv_fallback
          = Raise (ValueError
              (chars "No INSERT INTO restaurants statements found in SQL file")))
      /\ (forall sql_path csv, exists df,
             load_restaurants sql_path (Some (Some (Ok csv))) = Ok df)).
Proof.
  intros H.
  assert (P : parse_sql_inserts sql_text table_name = Ok Pd.empty_frame).
  { unfold parse_sql_inserts, assemble_items. rewrite H. reflexivity. }
  split; [exact P|]. split; [reflexivity|]. split; [reflexivity|].
  intros ->. split.
  - intros stored csv_fallback Hs [-> | ->];
      unfold load_restaurants, read_text; cbn [bind]; rewrite Hs, P;
      reflexivity.
  - intros sql_path csv. eexists. reflexivity.
Qed.

Lemma no_match_gives_empty_table_witness :
  Re.finditer (insert_pattern (chars "restaurants"))
    (chars "INSERT INTO users VALUES (9,'Z');") = []
  /\ parse_sql_inserts (chars "INSERT INTO users VALUES (9,'Z');")
       (chars "restaurants") = Ok Pd.empty_frame
  /\ load_restaurants
       (Some (Ok (chars "INSERT INTO users VALUES (9,'Z');"))) None
     = Raise (ValueError
         (chars "No INSERT INTO restaurants statements found in SQL file")).
Proof.
  split; [reflexivity|].
  destruct (no_match_gives_empty_table
              (chars "INSERT INTO users VALUES (9,'Z');") (chars "restaurants"))
    as [H1 [_ [_ H4]]]; [reflexivity|].
  split; [exact H1|].
  destruct (H4 eq_refl) as [H5 _]. apply H5; [reflexivity|]. left. reflexivity.
Defined.

(** Claim C2.  On the scenario's text, parsing and the renaming of
    [load_restaurants] give a table with 2 rows and 4 columns, labelled
    [restaurant_id], [restaurant_name], [cuisine] and [rating], whose rows
    are the two records of the statement, in order. *)
Theorem scenario_table :
  load_restaurants (Some (Ok scenario)) None
  = Ok {| Pd.columns := [chars "restaurant_id"; chars "restaurant_name";
                         chars "cuisine"; chars "rating"];
          Pd.rows :=
            [ [Some (chars "1"); Some (chars "Cafe A"); Some (chars "Cafe");
               Some (chars "4.1")];
              [Some (chars "2"); Some (chars "Place B"); Some (chars "Italian");
               Some (chars "3.9")] ] |}
  /\ (exists df, parse_sql_inserts scenario (chars "restaurants") = Ok df
                 /\ Pd.shape df = (2, 4)
                 /\ load_restaurants (Some (Ok scenario)) None
                    = Ok (Pd.rename (restaurant_columns df) df)).
Proof.
  split; [vm_compute; reflexivity|].
  eexists. split; [vm_compute; reflexivity|].
  split; vm_compute; reflexivity.
Qed.

(** * More on the tokenizer *)

Lemma scan_escaped (q : ascii) (w : str) : forall res cur rest,
  Chr.is_quote q = true -> Str.startswith q rest = false ->
  scan res cur true [q] (escape q w ++ q :: rest)
  = scan res (cur ++ w) false [] rest.
Proof.
  induction w as [|c w IH]; intros res cur rest Hq Hr.
  - simpl escape. simpl app. rewrite app_nil_r. apply scan_close; assumption.
  - simpl escape. destruct (Ascii.eqb c q) eqn:E.
    + apply Ascii.eqb_eq in E. subst c. simpl app.
      rewrite scan_escape by exact Hq. rewrite IH by assumption.
      rewrite <- app_assoc. reflexivity.
    + change ((c :: escape q w) ++ q :: rest)
        with ([c] ++ escape q w ++ q :: rest).
      rewrite scan_quoted.
      * rewrite IH by assumption. rewrite <- app_assoc. reflexivity.
      * unfold occurs. simpl. rewrite Ascii.eqb_sym, E. reflexivity.
Qed.

(** One written field, read in the unquoted state, adds its content to the
    field in progress. *)
Lemma scan_field (f : field) (res : list str) (cur rest : str) :
  field_ok f = true ->
  rest = [] \/ (exists rest', rest = Chr.comma :: rest') ->
  scan res cur false [] (render_field f ++ rest)
  = scan res (cur ++ content f) false [] rest.
Proof.
  intros Hf Hr. destruct f as [a|q w]; simpl in Hf;
    unfold render_field, content.
  - apply scan_bare, Hf.
  - replace ((q :: escape q w ++ [q]) ++ rest)
      with (q :: escape q w ++ q :: rest)
      by (simpl; rewrite <- app_assoc; reflexivity).
    rewrite scan_open by exact Hf.
    apply scan_escaped; [exact Hf|].
    destruct Hr as [-> | [rest' ->]]; [reflexivity | apply comma_not_quote, Hf].
Qed.

Lemma join_cons (sep x y : str) (l : list str) :
  join sep (x :: y :: l) = x ++ sep ++ join sep (y :: l).
Proof. reflexivity. Qed.

Lemma scan_record (fs : list field) : forall res,
  fs <> [] -> forallb field_ok fs = true ->
  scan res [] false [] (render_record fs)
  = res ++ map (fun f => Str.strip (content f)) fs.
Proof.
  unfold render_record.
  induction fs as [|f fs IH]; intros res Hne Hok; [contradiction|].
  simpl in Hok. apply andb_true_iff in Hok. destruct Hok as [Hf Hfs].
  destruct fs as [|g fs'].
  - simpl map. simpl join. rewrite <- (app_nil_r (render_field f)).
    rewrite scan_field by auto. reflexivity.
  - change (map render_field (f :: g :: fs'))
      with (render_field f :: render_field g :: map render_field fs').
    rewrite join_cons. simpl app.
    rewrite scan_field by eauto. rewrite scan_comma.
    change (render_field g :: map render_field fs')
      with (map render_field (g :: fs')).
    rewrite IH by (discriminate || exact Hfs).
    rewrite <- app_assoc. reflexivity.
Qed.

(** Property X1.  The tokenizer reads back what was written: for a record
    written as fields with commas between them, each field either bare
    (free of quotes and commas) or quoted with its quote characters doubled,
    it returns the contents of the fields, stripped of surrounding white
    space, in order.  Quoted contents may hold commas, the other quote
    character and doubled quotes. *)
Theorem tokenizer_reads_written_fields (fs : list field) :
  fs <> [] -> forallb field_ok fs = true ->
  split_sql_values (render_record fs)
  = map (fun f => Str.strip (content f)) fs.
Proof.
  intros Hne Hok. unfold split_sql_values.
  rewrite scan_record by assumption. reflexivity.
Qed.

Lemma tokenizer_reads_written_fields_witness :
  render_record [Bare (chars " 7 "); Quoted Chr.squote (chars "O'Brien, Tom");
                 Quoted Chr.dquote (chars "it's")]
  = chars " 7 ,'O''Brien, Tom'," ++ Chr.dquote :: chars "it's" ++ [Chr.dquote]
  /\ split_sql_values
       (render_record [Bare (chars " 7 ");
                       Quoted Chr.squote (chars "O'Brien, Tom");
                       Quoted Chr.dquote (chars "it's")])
     = [chars "7"; chars "O'Brien, Tom"; chars "it's"].
Proof.
  split; [reflexivity|].
  apply (tokenizer_reads_written_fields
           [Bare (chars " 7 "); Quoted Chr.squote (chars "O'Brien, Tom");
            Quoted Chr.dquote (chars "it's")]); [discriminate | reflexivity].
Defined.

Lemma commas_cons (c : ascii) (s : str) :
  commas (c :: s) = (if Ascii.eqb c Chr.comma then 1 else 0) + commas s.
Proof.
  unfold commas. simpl count_occ.
  destruct (ascii_dec c Chr.comma) as [->|N].
  - rewrite Ascii.eqb_refl. reflexivity.
  - apply Ascii.eqb_neq in N. rewrite N. reflexivity.
Qed.

Lemma commas_le_cons (c : ascii) (s : str) : commas s <= commas (c :: s).
Proof. rewrite commas_cons. lia. Qed.

Lemma scan_count (s : str) : forall res cur in_quote quote_char,
  length (scan res cur in_quote quote_char s) <= length res + 1 + commas s.
Proof.
  induction s as [s IH] using str_length_ind.
  intros res cur iq qc. destruct s as [|ch rest].
  - simpl. rewrite length_app. simpl. lia.
  - assert (IH1 : forall res cur iq qc,
      length (scan res cur iq qc rest) <= length res + 1 + commas rest).
    { intros. apply IH. simpl. lia. }
    pose proof (commas_le_cons ch rest) as Hc.
    simpl scan. destruct (Chr.is_quote ch).
    + destruct (negb iq); [rewrite IH1; lia|].
      destruct (Str.eqb [ch] qc); [|rewrite IH1; lia].
      destruct rest as [|nx rest']; [rewrite IH1; lia|].
      destruct (Str.eqb [nx] qc); [|rewrite IH1; lia].
      pose proof (commas_le_cons nx rest') as Hn.
      rewrite IH by (simpl; lia). lia.
    + destruct (Ascii.eqb ch Chr.comma) eqn:E; simpl andb.
      * destruct (negb iq); rewrite IH1; rewrite commas_cons, E;
          rewrite ?length_app; simpl; lia.
      * rewrite IH1. lia.
Qed.

Lemma scan_count_unquoted (s : str) : forall res cur quote_char,
  forallb (fun c => negb (Chr.is_quote c)) s = true ->
  length (scan res cur false quote_char s) = length res + 1 + commas s.
Proof.
  induction s as [|ch rest IH]; intros res cur qc H.
  - unfold commas. simpl. rewrite length_app. simpl. lia.
  - simpl in H. apply andb_true_iff in H. destruct H as [Hq Hr].
    apply negb_true_iff in Hq. simpl scan. rewrite Hq, commas_cons.
    destruct (Ascii.eqb ch Chr.comma); cbn [andb negb];
      rewrite IH by exact Hr; rewrite ?length_app; simpl; lia.
Qed.

(** Property X2.  The tokenizer returns at most one field more than the
    record has commas, and exactly that many when the record holds no quote
    character. *)
Theorem field_count_bounded_by_commas (s : str) :
  length (split_sql_values s) <= 1 + commas s
  /\ (forallb (fun c => negb (Chr.is_quote c)) s = true ->
      length (split_sql_values s) = 1 + commas s).
Proof.
  split.
  - apply (scan_count s [] [] false []).
  - intros H. apply (scan_count_unquoted s [] [] [] H).
Qed.

Lemma field_count_bounded_by_commas_witness :
  length (split_sql_values (chars "1,'a,b',2")) <= 1 + 3
  /\ length (split_sql_values (chars "1, Cafe ,,4.5")) = 1 + 3.
Proof.
  split.
  - apply (field_count_bounded_by_commas (chars "1,'a,b',2")).
  - apply (field_count_bounded_by_commas (chars "1, Cafe ,,4.5")).
    reflexivity.
Defined.

Lemma strip_with_In (p : ascii -> bool) (x : str) (c : ascii) :
  In c (Str.strip_with p x) -> In c x.
Proof.
  intros H. destruct (strip_with_split p x) as [l [r [E _]]].
  rewrite E. apply in_or_app. right. apply in_or_app. left. exact H.
Qed.

Lemma scan_chars (s : str) : forall res cur in_quote quote_char p c,
  In p (scan res cur in_quote quote_char s) -> In c p ->
  (exists p', In p' res /\ In c p') \/ In c cur \/ In c quote_char \/ In c s.
Proof.
  induction s as [s IH] using str_length_ind.
  intros res cur iq qc p c. destruct s as [|ch rest].
  - simpl. intros H Hc. apply in_app_or in H. destruct H as [H|[H|[]]].
    + left. eauto.
    + subst p. right. left. apply (strip_with_In _ _ _ Hc).
  - assert (IH1 : forall res cur iq qc,
      In p (scan res cur iq qc rest) -> In c p ->
      (exists p', In p' res /\ In c p') \/ In c cur \/ In c qc \/ In c rest).
    { intros. eapply IH; [simpl; lia | eassumption | assumption]. }
    assert (Keep : forall res' cur' iq' qc',
      (forall p', In p' res' -> In c p' ->
         (exists p'', In p'' res /\ In c p'') \/ In c cur) ->
      (In c cur' -> In c cur \/ In c qc \/ In c (ch :: rest)) ->
      (In c qc' -> In c qc \/ In c (ch :: rest)) ->
      In p (scan res' cur' iq' qc' rest) -> In c p ->
      (exists p', In p' res /\ In c p') \/ In c cur \/ In c qc
      \/ In c (ch :: rest)).
    { intros res' cur' iq' qc' Hres Hcur Hqc H Hc.
      destruct (IH1 _ _ _ _ H Hc) as [[p' [H1 H2]]|[H1|[H1|H1]]].
      - destruct (Hres _ H1 H2); auto.
      - destruct (Hcur H1) as [|[|]]; auto.
      - destruct (Hqc H1); auto.
      - right. right. right. right. exact H1. }
    simpl scan. destruct (Chr.is_quote ch).
    + destruct (negb iq).
      { apply Keep; auto.
        - intros; left; eauto.
        - intros [<-|[]]. right. left. reflexivity. }
      destruct (Str.eqb [ch] qc).
      2:{ apply Keep; auto.
          - intros; left; eauto.
          - intros H. apply in_app_or in H. destruct H as [H|[<-|[]]]; auto.
            right. right. left. reflexivity. }
      destruct rest as [|nx rest'].
      { apply Keep; auto.
        - intros; left; eauto.
        - intros []. }
      destruct (Str.eqb [nx] qc).
      2:{ apply Keep; auto.
          - intros; left; eauto.
          - intros []. }
      intros H Hc.
      destruct (IH rest' ltac:(simpl; lia) _ _ _ _ _ _ H Hc)
        as [H1|[H1|[H1|H1]]]; auto.
      * apply in_app_or in H1. destruct H1; auto.
      * right. right. right. right. right. exact H1.
    + destruct (Ascii.eqb ch Chr.comma && negb iq).
      * apply Keep; auto.
        -- intros p' H1 H2. apply in_app_or in H1.
           destruct H1 as [H1|[<-|[]]]; [left; eauto|].
           right. apply (strip_with_In _ _ _ H2).
        -- intros [].
      * apply Keep; auto.
        -- intros; left; eauto.
        -- intros H. apply in_app_or in H. destruct H as [H|[<-|[]]]; auto.
           right. right. left. reflexivity.
Qed.

(** Property X3.  The tokenizer invents nothing: every character of every
    field it returns is a character of the record. *)
Theorem fields_hold_only_record_characters (s p : str) (c : ascii) :
  In p (split_sql_values s) -> In c p -> In c s.
Proof.
  intros H Hc.
  destruct (scan_chars s [] [] false [] p c H Hc)
    as [[p' [[] _]]|[[]|[[]|H1]]].
  exact H1.
Qed.

Lemma fields_hold_only_record_characters_witness :
  In (chars "O'Brien") (split_sql_values (chars "7,'O''Brien'"))
  /\ In "B"%char (chars "7,'O''Brien'").
Proof.
  assert (H : In (chars "O'Brien") (split_sql_values (chars "7,'O''Brien'")))
    by (right; left; reflexivity).
  split; [exact H|].
  apply (fields_hold_only_record_characters (chars "7,'O''Brien'")
           (chars "O'Brien") "B"%char H).
  right. right. left. reflexivity.
Defined.

Lemma trimmed_of_ends (p : ascii -> bool) (w : str) :
  trimmed_of p w = true -> no_lead p w /\ no_trail p w.
Proof.
  unfold trimmed_of, no_trail, no_lead. intros H.
  apply andb_true_iff in H. destruct H as [H1 H2]. split.
  - destruct w; [exact I | apply negb_true_iff, H1].
  - destruct (rev w); [exact I | apply negb_true_iff, H2].
Qed.

Lemma plain_value_kept (w : str) :
  plain_value w = true -> Str.strip w = w /\ clean_part w = w.
Proof.
  unfold plain_value. intros H. apply andb_true_iff in H.
  destruct H as [Hs Hq].
  apply trimmed_of_ends in Hs, Hq. destruct Hs as [Hs1 Hs2].
  destruct Hq as [Hq1 Hq2].
  assert (E : Str.strip w = w) by (apply strip_with_id; assumption).
  split; [exact E|].
  unfold clean_part, Str.strip_chars. rewrite E.
  rewrite (strip_with_ext _ Chr.is_quote).
  - apply strip_with_id; assumption.
  - intros c. simpl. rewrite orb_false_r. reflexivity.
Qed.

(** Property X4.  Tokenizing and the second pass together give back the
    values of a written record as they are, provided no value begins or
    ends with white space or with a quote character. *)
Theorem clean_record_reads_plain_values (fs : list field) :
  fs <> [] -> forallb field_ok fs = true ->
  forallb (fun f => plain_value (content f)) fs = true ->
  clean_record (render_record fs) = map content fs.
Proof.
  intros Hne Hok Hpl. unfold clean_record, split_sql_values.
  rewrite scan_record by assumption. simpl app. rewrite map_map.
  apply map_ext_in. intros f Hf.
  rewrite forallb_forall in Hpl. specialize (Hpl f Hf).
  destruct (plain_value_kept _ Hpl) as [E1 E2]. rewrite E1. exact E2.
Qed.

Lemma clean_record_reads_plain_values_witness :
  clean_record (chars "12,'Cafe ''A'' (north), open','4.1'")
  = [chars "12"; chars "Cafe 'A' (north), open"; chars "4.1"].
Proof.
  apply (clean_record_reads_plain_values
           [Bare (chars "12");
            Quoted Chr.squote (chars "Cafe 'A' (north), open");
            Quoted Chr.squote (chars "4.1")]);
    [discriminate | reflexivity | reflexivity].
Defined.

(** * More on the record assembler *)

Lemma split_at_boundary (sep rest piece : str) :
  is_boundary sep ->
  Re.split_from record_boundary (sep ++ rest) 0 piece
  = piece :: Re.split_from record_boundary rest 0 [].
Proof.
  intros [ws Hw].
  replace ((Chr.rparen :: Chr.comma :: ws ++ [Chr.lparen]) ++ rest)
    with (Chr.rparen :: Chr.comma :: ws ++ Chr.lparen :: rest)
    by (simpl; rewrite <- app_assoc; reflexivity).
  rewrite split_from_cons, (record_boundary_found ws rest Hw).
  replace (Chr.comma :: ws ++ Chr.lparen :: rest)
    with ((Chr.comma :: ws ++ [Chr.lparen]) ++ rest)
    by (simpl; rewrite <- app_assoc; reflexivity).
  rewrite matched_length, split_skip. reflexivity.
Qed.

Lemma split_glue (recs : list str) : forall seps piece,
  length recs = S (length seps) ->
  forallb (fun r => negb (occurs Chr.rparen r)) recs = true ->
  Forall is_boundary seps ->
  Re.split_from record_boundary (glue recs seps) 0 piece
  = match recs with
    | r :: recs' => (piece ++ r) :: recs'
    | [] => [piece]
    end.
Proof.
  induction recs as [|r recs IH]; intros seps piece Hl Hr Hs;
    [discriminate Hl|].
  simpl in Hr. apply andb_true_iff in Hr. destruct Hr as [Hr0 Hr].
  apply negb_true_iff in Hr0.
  destruct seps as [|sep seps].
  - destruct recs as [|r' recs']; [|discriminate Hl].
    simpl glue. apply split_rparen_free, Hr0.
  - destruct recs as [|r' recs']; [discriminate Hl|].
    change (glue (r :: r' :: recs') (sep :: seps))
      with (r ++ sep ++ glue (r' :: recs') seps).
    inversion Hs as [|? ? Hsep Hseps]; subst.
    rewrite split_without_rparen by exact Hr0.
    rewrite split_at_boundary by exact Hsep.
    rewrite (IH seps []); auto.
Qed.

(** Property X5.  Splitting undoes the writing of a value list: records
    that hold no close-paren, written between separators of the form
    close-paren, comma, white space, open-paren and wrapped in one pair of
    parentheses, come back as they were, in order and in number. *)
Theorem split_records_reads_written_list (recs seps : list str) :
  length recs = S (length seps) ->
  forallb (fun r => negb (occurs Chr.rparen r)) recs = true ->
  Forall is_boundary seps ->
  split_records (Chr.lparen :: glue recs seps ++ [Chr.rparen]) = recs.
Proof.
  intros Hl Hr Hs. rewrite split_records_wrapped. unfold Re.split.
  rewrite split_glue by assumption.
  destruct recs; [discriminate Hl | reflexivity].
Qed.

Lemma split_records_reads_written_list_witness :
  split_records (chars "(1,'A'),(2,'B'), (3,'C')")
  = [chars "1,'A'"; chars "2,'B'"; chars "3,'C'"].
Proof.
  apply (split_records_reads_written_list
           [chars "1,'A'"; chars "2,'B'"; chars "3,'C'"]
           [chars "),("; chars "), ("]).
  - reflexivity.
  - reflexivity.
  - repeat constructor.
    + exact (boundary_intro [] eq_refl).
    + exact (boundary_intro (chars " ") eq_refl).
Defined.

(** A match of the boundary pattern depends only on the text it consumes. *)
Lemma record_boundary_extend (z rest t : str) :
  record_boundary z = Some rest -> record_boundary (z ++ t) = Some (rest ++ t).
Proof.
  intros H. destruct (record_boundary_match _ _ H) as [sep [[ws Hw] ->]].
  replace (((Chr.rparen :: Chr.comma :: ws ++ [Chr.lparen]) ++ rest) ++ t)
    with (Chr.rparen :: Chr.comma :: ws ++ Chr.lparen :: rest ++ t)
    by (simpl; rewrite <- !app_assoc; reflexivity).
  apply record_boundary_found, Hw.
Qed.

Lemma nonempty_suffix_of_snoc (A : Type) (piece y z : list A) (c : A) :
  piece ++ [c] = y ++ z -> z <> [] ->
  exists z0, z = z0 ++ [c] /\ piece = y ++ z0.
Proof.
  intros E Hz. destruct (exists_last Hz) as [z0 [d ->]].
  rewrite app_assoc in E. apply app_inj_tail in E. destruct E as [-> ->].
  exists z0. auto.
Qed.

(** No piece that [re.split] returns holds a match of the pattern. *)
Lemma split_from_pieces_unmatched (s : str) : forall piece,
  (forall y z, piece = y ++ z -> z <> [] -> record_boundary (z ++ s) = None) ->
  forall r, In r (Re.split_from record_boundary s 0 piece) ->
  forall y z, r = y ++ z -> record_boundary z = None.
Proof.
  induction s as [s IH] using str_length_ind. intros piece Inv.
  assert (Done : forall y z, piece = y ++ z -> record_boundary z = None).
  { intros y z E. destruct z as [|c z']; [reflexivity|].
    destruct (record_boundary (c :: z')) as [rest|] eqn:M; [|reflexivity].
    apply (record_boundary_extend _ _ s) in M.
    rewrite (Inv y (c :: z') E) in M by discriminate. discriminate M. }
  destruct s as [|c s'].
  - simpl. intros r [<-|[]]. exact Done.
  - rewrite split_from_cons.
    destruct (record_boundary (c :: s')) as [rest|] eqn:M.
    + destruct (record_boundary_match _ _ M) as [sep [Hsep Hs]].
      destruct sep as [|c' sep']; [inversion Hsep|].
      injection Hs as -> ->. rewrite matched_length, split_skip.
      intros r [<-|Hr]; [exact Done|].
      revert r Hr. apply IH.
      * simpl. rewrite length_app. lia.
      * intros y z E Hz. destruct y; destruct z; try discriminate.
        contradiction.
    + apply IH; [simpl; lia|].
      intros y z E Hz.
      destruct (nonempty_suffix_of_snoc _ _ _ _ _ E Hz) as [z0 [-> Ep]].
      rewrite <- app_assoc. simpl app.
      destruct z0 as [|d z0']; [exact M|].
      apply (Inv y (d :: z0') Ep). discriminate.
Qed.

(** Property X6.  The records of a wrapped value list are cut at every
    separator: no record holds a close-paren, comma, white space and
    open-paren in a row. *)
Theorem records_hold_no_separator (vals r y sep z : str) :
  Str.startswith Chr.lparen vals && Str.endswith Chr.rparen vals = true ->
  In r (split_records vals) -> is_boundary sep ->
  r <> y ++ sep ++ z.
Proof.
  intros Hv Hr Hsep E. unfold split_records in Hr. rewrite Hv in Hr.
  unfold Re.split in Hr.
  assert (N : record_boundary (sep ++ z) = None).
  { apply (split_from_pieces_unmatched (Str.slice_1_m1 vals) []) with (r := r) (y := y).
    - intros y' z' E' Hz. destruct y'; destruct z'; try discriminate.
      contradiction.
    - exact Hr.
    - exact E. }
  destruct Hsep as [ws Hw].
  replace ((Chr.rparen :: Chr.comma :: ws ++ [Chr.lparen]) ++ z)
    with (Chr.rparen :: Chr.comma :: ws ++ Chr.lparen :: z) in N
    by (simpl; rewrite <- app_assoc; reflexivity).
  rewrite (record_boundary_found ws z Hw) in N. discriminate N.
Qed.

Lemma records_hold_no_separator_witness :
  In (chars "2,'x") (split_records (chars "(1),(2,'x), (y')"))
  /\ chars "2,'x" <> chars "2" ++ chars "), (" ++ chars "y'".
Proof.
  assert (H : In (chars "2,'x") (split_records (chars "(1),(2,'x), (y')")))
    by (right; left; reflexivity).
  split; [exact H|].
  apply (records_hold_no_separator (chars "(1),(2,'x), (y')") (chars "2,'x")
           (chars "2") (chars "), (") (chars "y'")).
  - reflexivity.
  - exact H.
  - exact (boundary_intro (chars " ") eq_refl).
Defined.

(** * More on the statement extractor *)

Lemma is_space_lower (c : ascii) : Chr.is_space (Chr.lower c) = Chr.is_space c.
Proof. destruct c as [[] [] [] [] [] [] [] []]; reflexivity. Qed.

Lemma backtick_lower (c : ascii) :
  Ascii.eqb Chr.backtick (Chr.lower c) = Ascii.eqb Chr.backtick c.
Proof. destruct c as [[] [] [] [] [] [] [] []]; reflexivity. Qed.

Lemma space_not_backtick (c : ascii) :
  Chr.is_space c = true -> Ascii.eqb Chr.backtick c = false.
Proof. destruct c as [[] [] [] [] [] [] [] []]; (reflexivity || discriminate). Qed.

Lemma str_eqb_cons (x y : ascii) (a b : str) :
  Str.eqb (x :: a) (y :: b) = Ascii.eqb x y && Str.eqb a b.
Proof. reflexivity. Qed.

Lemma same_nocase_cons (l t : str) (c : ascii) (l' : str) :
  same_nocase l t = true -> l = c :: l' ->
  exists x t', t = x :: t' /\ Chr.lower c = Chr.lower x
               /\ same_nocase l' t' = true.
Proof.
  intros H ->. unfold same_nocase in H. destruct t as [|x t']; [discriminate H|].
  simpl map in H. rewrite str_eqb_cons in H.
  apply andb_true_iff in H. destruct H as [H1 H2].
  apply Ascii.eqb_eq in H1. eauto.
Qed.

Section Forward.
Variable R : Type.
Implicit Types (k : Re.cont R) (s : str) (r : R).

Lemma lit_match (l : str) : forall t k s,
  same_nocase l t = true -> Re.lit l k (t ++ s) = k s.
Proof.
  induction l as [|c l IH]; intros t k s H.
  - destruct t; [reflexivity | discriminate H].
  - destruct (same_nocase_cons _ _ c l H eq_refl) as [x [t' [-> [E H']]]].
    simpl. unfold Chr.eq_nocase. rewrite E, Ascii.eqb_refl. apply IH, H'.
Qed.

Lemma star_gap (ws s : str) k r :
  forallb Chr.is_space ws = true -> starts_unspaced s = true ->
  k s = Some r -> Re.star Chr.is_space k (ws ++ s) = Some r.
Proof.
  intros Hw Hs Hk. destruct s as [|c rest]; [discriminate Hs|].
  apply star_run; [exact Hw | apply negb_true_iff, Hs | exact Hk].
Qed.

Lemma plus_gap (ws s : str) k r :
  is_gap ws = true -> starts_unspaced s = true ->
  k s = Some r -> Re.plus Chr.is_space k (ws ++ s) = Some r.
Proof.
  intros Hw Hs Hk. destruct ws as [|w ws']; [discriminate Hw|].
  simpl in Hw. apply andb_true_iff in Hw. destruct Hw as [H1 H2].
  unfold Re.plus. simpl. rewrite H1. apply star_gap; assumption.
Qed.

Lemma opt_tick (b : bool) (s : str) k r :
  b = true \/ match s with c :: _ => Ascii.eqb Chr.backtick c = false
                      | [] => True end ->
  k s = Some r ->
  Re.opt (Re.chr (Ascii.eqb Chr.backtick)) k (tick b ++ s) = Some r.
Proof.
  intros Hb Hk. unfold Re.opt. destruct b.
  - unfold tick, Re.chr. cbn [app]. rewrite Ascii.eqb_refl, Hk. reflexivity.
  - destruct Hb as [Hb|Hb]; [discriminate Hb|]. unfold tick. cbn [app].
    destruct s as [|c rest]; unfold Re.chr; [exact Hk|]. rewrite Hb. exact Hk.
Qed.

Lemma star_any_keeps k (pre x : str) r :
  Re.star Re.any k x = Some r -> Re.star Re.any k (pre ++ x) = Some r.
Proof.
  intros H. induction pre as [|c pre IH]; simpl; [exact H|].
  rewrite IH. reflexivity.
Qed.

Lemma star_any_fails k (s : str) :
  (forall y z, s = y ++ z -> k z = None) -> Re.star Re.any k s = None.
Proof.
  induction s as [|c s IH]; intros H; simpl.
  - apply (H [] []). reflexivity.
  - rewrite IH.
    + apply (H [] (c :: s)). reflexivity.
    + intros y z E. apply (H (c :: y) z). rewrite E. reflexivity.
Qed.

End Forward.

Lemma star_any_last (f : str -> str) (body trailing : str) :
  occurs Chr.semicolon trailing = false ->
  Re.star Re.any
    (fun rest => Re.chr (Ascii.eqb Chr.semicolon)
                   (fun rest' => Some (f rest, rest')) rest)
    (body ++ Chr.semicolon :: trailing)
  = Some (f (Chr.semicolon :: trailing), trailing).
Proof.
  intros Ht. apply star_any_keeps.
  change (Re.star Re.any ?k (Chr.semicolon :: trailing))
    with (match Re.star Re.any k trailing with
          | Some r => Some r
          | None => k (Chr.semicolon :: trailing)
          end).
  rewrite star_any_fails.
  - unfold Re.chr. rewrite Ascii.eqb_refl. reflexivity.
  - intros y z E. destruct z as [|c z']; [reflexivity|].
    unfold Re.chr. destruct (Ascii.eqb Chr.semicolon c) eqn:Ec; [|reflexivity].
    apply Ascii.eqb_eq in Ec. subst c.
    rewrite E, occurs_app in Ht. apply orb_false_elim in Ht.
    destruct Ht as [_ Ht]. apply occurs_cons in Ht. destruct Ht as [Ht _].
    rewrite Ascii.eqb_refl in Ht. discriminate Ht.
Qed.

(** The group takes the value list up to the last semicolon. *)
Lemma group_found (body trailing : str) :
  body <> [] -> occurs Chr.semicolon trailing = false ->
  Re.group (Re.plus Re.any)
    (fun g => Re.chr (Ascii.eqb Chr.semicolon) (fun rest => Some (g, rest)))
    (body ++ Chr.semicolon :: trailing)
  = Some (body, trailing).
Proof.
  intros Hb Ht. destruct body as [|b0 body']; [contradiction|].
  unfold Re.group, Re.plus.
  etransitivity;
    [apply (star_any_last
              (fun rest =>
                 firstn (length ((b0 :: body') ++ Chr.semicolon :: trailing)
                         - length rest)
                        ((b0 :: body') ++ Chr.semicolon :: trailing))
              body' trailing Ht)|].
  cbv beta. rewrite firstn_length_app. reflexivity.
Qed.

Lemma starts_unspaced_nocase (l t s : str) :
  same_nocase l t = true -> starts_unspaced l = true ->
  starts_unspaced (t ++ s) = true.
Proof.
  intros H Hl. destruct l as [|c l']; [discriminate Hl|].
  destruct (same_nocase_cons _ _ c l' H eq_refl) as [x [t' [-> [E _]]]].
  simpl in Hl |- *. rewrite <- is_space_lower, <- E, is_space_lower. exact Hl.
Qed.

Lemma plain_name_unspaced (t : str) :
  plain_name t = true -> starts_unspaced t = true.
Proof.
  destruct t as [|c t']; [discriminate|]. simpl. intros H.
  apply andb_true_iff in H. tauto.
Qed.

Lemma plain_name_unticked (t nm s : str) :
  same_nocase t nm = true -> plain_name t = true ->
  match nm ++ s with
  | c :: _ => Ascii.eqb Chr.backtick c = false
  | [] => True
  end.
Proof.
  intros H Ht. destruct t as [|c t']; [discriminate Ht|].
  destruct (same_nocase_cons _ _ c t' H eq_refl) as [x [nm' [-> [E _]]]].
  unfold plain_name in Ht. apply andb_true_iff in Ht. destruct Ht as [_ Ht].
  apply negb_true_iff in Ht. cbn [app].
  rewrite <- backtick_lower, <- E, backtick_lower. exact Ht.
Qed.

Lemma gap_unticked (ws s : str) :
  is_gap ws = true ->
  match ws ++ s with
  | c :: _ => Ascii.eqb Chr.backtick c = false
  | [] => True
  end.
Proof.
  destruct ws as [|w ws']; [discriminate|]. intros H. simpl in H.
  apply andb_true_iff in H. destruct H as [H _]. cbn [app].
  apply space_not_backtick, H.
Qed.

Lemma tick_unspaced (b : bool) (s : str) :
  starts_unspaced s = true -> starts_unspaced (tick b ++ s) = true.
Proof. destruct b; [reflexivity | intros H; exact H]. Qed.

(** The pattern matches a written statement at its first character and
    captures the value list. *)
Lemma insert_pattern_found (table_name : str) (h : header)
  (values trailing : str) :
  plain_name table_name = true -> header_ok table_name h = true ->
  starts_unspaced values = true -> occurs Chr.semicolon trailing = false ->
  insert_pattern table_name (header_then h (values ++ Chr.semicolon :: trailing))
  = Some (values, trailing).
Proof.
  intros Ht Hh Hv Htr. unfold header_ok in Hh.
  repeat (apply andb_true_iff in Hh; let H := fresh "H" in destruct Hh as [Hh H]).
  unfold insert_pattern, header_then.
  rewrite lit_match by assumption.
  apply plus_gap; [assumption | eapply starts_unspaced_nocase; eauto|].
  rewrite lit_match by assumption.
  apply plus_gap;
    [assumption
    | apply tick_unspaced; eapply starts_unspaced_nocase;
        [eassumption | apply plain_name_unspaced, Ht]|].
  apply opt_tick; [right; eapply plain_name_unticked; eassumption|].
  rewrite lit_match by assumption.
  apply opt_tick; [right; apply gap_unticked; assumption|].
  apply plus_gap; [assumption | eapply starts_unspaced_nocase; eauto|].
  rewrite lit_match by assumption.
  apply star_gap;
    [assumption | destruct values; [discriminate Hv | exact Hv]|].
  apply group_found; [destruct values; [discriminate Hv | discriminate] | exact Htr].
Qed.

Lemma insert_pattern_needs_i (table_name : str) (c : ascii) (s : str) :
  Chr.eq_nocase "I"%char c = false -> insert_pattern table_name (c :: s) = None.
Proof.
  intros H. unfold insert_pattern.
  change (chars "INSERT") with ("I"%char :: chars "NSERT").
  cbn [Re.lit]. unfold Re.chr at 1. rewrite H. reflexivity.
Qed.

Lemma finditer_lead (table_name lead s : str) :
  no_letter_i lead = true ->
  Re.finditer_from (insert_pattern table_name) (lead ++ s) 0
  = Re.finditer_from (insert_pattern table_name) s 0.
Proof.
  induction lead as [|c lead IH]; intros H; [reflexivity|].
  simpl in H. apply andb_true_iff in H. destruct H as [Hc Hl].
  apply negb_true_iff in Hc. cbn [app].
  rewrite finditer_from_cons, insert_pattern_needs_i by exact Hc.
  apply IH, Hl.
Qed.

Lemma header_then_app (h : header) (tail x : str) :
  header_then h tail ++ x = header_then h (tail ++ x).
Proof. unfold header_then. repeat rewrite <- app_assoc. reflexivity. Qed.

(** A match anywhere is the only match from there on. *)
Lemma finditer_single (table_name s g rest : str) :
  insert_pattern table_name s = Some (g, rest) ->
  Re.finditer (insert_pattern table_name) s = [g].
Proof.
  intros M. rewrite finditer_unfold by apply insert_pattern_consumes.
  rewrite M. unfold Re.finditer.
  destruct (insert_pattern_semicolons _ _ _ _ M) as [_ Hr].
  rewrite (finditer_without_semicolon _ (insert_pattern_semicolons table_name)
             rest Hr 0).
  reflexivity.
Qed.

(** Property X7.  A single written statement is found whole: with the
    keywords in any case, white space (line breaks too) between the words,
    the table name in any case and with or without backticks, the
    extractor returns exactly one match, the value list, when the text
    before the statement holds no letter i and the text after it no
    semicolon. *)
Theorem extractor_finds_written_statement (table_name : str) (h : header)
  (lead values trailing : str) :
  plain_name table_name = true -> header_ok table_name h = true ->
  no_letter_i lead = true -> starts_unspaced values = true ->
  occurs Chr.semicolon trailing = false ->
  Re.finditer (insert_pattern table_name) (lead ++ statement h values ++ trailing)
  = [values].
Proof.
  intros Ht Hh Hl Hv Htr. unfold Re.finditer, statement.
  rewrite finditer_lead by exact Hl.
  rewrite header_then_app, <- app_assoc. cbn [app].
  apply (finditer_single table_name _ values trailing).
  apply insert_pattern_found; assumption.
Qed.

Lemma extractor_finds_written_statement_witness :
  Re.finditer (insert_pattern (chars "restaurants"))
    (chars "-- data" ++ [ascii_of_nat 10]
     ++ chars "insert  into `Restaurants`" ++ [ascii_of_nat 10]
     ++ chars "values (1,'a;b'),(2,'c');" ++ [ascii_of_nat 10])
  = [chars "(1,'a;b'),(2,'c')"].
Proof.
  apply (extractor_finds_written_statement (chars "restaurants")
           {| kw_insert := chars "insert"; gap1 := chars "  ";
              kw_into := chars "into"; gap2 := chars " ";
              tick1 := true; name := chars "Restaurants"; tick2 := true;
              gap3 := [ascii_of_nat 10]; kw_values := chars "values";
              gap4 := chars " " |}
           (chars "-- data" ++ [ascii_of_nat 10])
           (chars "(1,'a;b'),(2,'c')") [ascii_of_nat 10]); reflexivity.
Defined.

(** * More on the table and on [load_restaurants] *)

Lemma universal_newlines_cons (c : ascii) (s : str) :
  universal_newlines (c :: s)
  = if Ascii.eqb c Chr.cr then
      Chr.lf :: match s with
                | d :: s' =>
                    if Ascii.eqb d Chr.lf
                    then universal_newlines s'
                    else universal_newlines s
                | [] => universal_newlines s
                end
    else c :: universal_newlines s.
Proof. reflexivity. Qed.

(** Reading adds no character but the line feed. *)
Lemma universal_newlines_In (c : ascii) (s : str) :
  In c (universal_newlines s) -> In c s \/ c = Chr.lf.
Proof.
  induction s as [s IH] using str_length_ind. destruct s as [|x s'].
  - intros [].
  - assert (IH1 : In c (universal_newlines s') -> In c s' \/ c = Chr.lf)
      by (apply IH; simpl; lia).
    rewrite universal_newlines_cons. destruct (Ascii.eqb x Chr.cr).
    + intros [<-|H]; [right; reflexivity|].
      destruct s' as [|d s'']; [destruct H|].
      destruct (Ascii.eqb d Chr.lf).
      * destruct (IH s'' ltac:(simpl; lia) H) as [H1|H1]; [|auto].
        left. right. right. exact H1.
      * destruct (IH1 H) as [H1|H1]; [|auto]. left. right. exact H1.
    + intros [<-|H]; [left; left; reflexivity|].
      destruct (IH1 H) as [H1|H1]; [|auto]. left. right. exact H1.
Qed.

Lemma universal_newlines_semicolon (s : str) :
  occurs Chr.semicolon s = false ->
  occurs Chr.semicolon (universal_newlines s) = false.
Proof.
  intros H. destruct (occurs Chr.semicolon (universal_newlines s)) eqn:E;
    [|reflexivity].
  apply existsb_exists in E. destruct E as [c [Hc Ec]].
  apply Ascii.eqb_eq in Ec. subst c.
  destruct (universal_newlines_In _ _ Hc) as [H1|H1]; [|discriminate H1].
  assert (T : occurs Chr.semicolon s = true).
  { apply existsb_exists. exists Chr.semicolon. split; [exact H1|].
    apply Ascii.eqb_refl. }
  congruence.
Qed.

(** A text without carriage returns is read as it is stored. *)
Lemma universal_newlines_id (s : str) :
  occurs Chr.cr s = false -> universal_newlines s = s.
Proof.
  induction s as [|c s IH]; intros H; [reflexivity|].
  apply occurs_cons in H. destruct H as [Hc Hs].
  rewrite universal_newlines_cons, Hc, (IH Hs). reflexivity.
Qed.

Lemma parse_no_match (sql_text table_name : str) :
  Re.finditer (insert_pattern table_name) sql_text = [] ->
  parse_sql_inserts sql_text table_name = Ok Pd.empty_frame.
Proof.
  intros H. unfold parse_sql_inserts, assemble_items. rewrite H. reflexivity.
Qed.

(** Property X8.  A text without any semicolon yields no statement, however
    well formed it is otherwise: [parse_sql_inserts] returns the empty
    table, and [load_restaurants] without a fallback raises [ValueError] on
    a file that stores such a text. *)
Theorem unterminated_text_yields_nothing (sql_text table_name : str) :
  occurs Chr.semicolon sql_text = false ->
  parse_sql_inserts sql_text table_name = Ok Pd.empty_frame
  /\ load_restaurants (Some (Ok sql_text)) None
     = Raise (ValueError
         (chars "No INSERT INTO restaurants statements found in SQL file")).
Proof.
  intros H.
  assert (F : forall s t, occurs Chr.semicolon s = false ->
                          Re.finditer (insert_pattern t) s = []).
  { intros s t Hs. unfold Re.finditer.
    apply (finditer_without_semicolon _ (insert_pattern_semicolons t)), Hs. }
  split; [apply parse_no_match, F, H|].
  unfold load_restaurants, read_text. cbn [bind].
  rewrite (parse_no_match _ _ (F _ _ (universal_newlines_semicolon _ H))).
  reflexivity.
Qed.

Lemma unterminated_text_yields_nothing_witness :
  parse_sql_inserts (chars "INSERT INTO restaurants VALUES (1,'A'),(2,'B')")
    (chars "restaurants")
  = Ok Pd.empty_frame.
Proof.
  apply (unterminated_text_yields_nothing
           (chars "INSERT INTO restaurants VALUES (1,'A'),(2,'B')")
           (chars "restaurants")).
  reflexivity.
Defined.

Lemma split_from_nonempty (s : str) : forall skip piece,
  Re.split_from record_boundary s skip piece <> [].
Proof.
  induction s as [|c s IH]; intros skip piece; [discriminate|].
  destruct skip; [|apply IH].
  rewrite split_from_cons.
  destruct (record_boundary (c :: s)); [discriminate | apply IH].
Qed.

Lemma records_of_match_nonempty (g : str) :
  exists r rs, records_of_match g = r :: rs /\ r <> [].
Proof.
  unfold records_of_match, split_records.
  destruct (Str.startswith Chr.lparen (Str.strip g)
            && Str.endswith Chr.rparen (Str.strip g)).
  - unfold Re.split.
    destruct (Re.split_from record_boundary (Str.slice_1_m1 (Str.strip g)) 0 [])
      as [|x xs] eqn:E; [exfalso; exact (split_from_nonempty _ _ _ E)|].
    simpl. eexists _, _. split; [reflexivity|]. unfold clean_record.
    intros H. apply map_eq_nil in H. exact (scan_nonempty _ _ _ _ _ H).
  - simpl. eexists _, _. split; [reflexivity|]. unfold clean_record.
    intros H. apply map_eq_nil in H. exact (scan_nonempty _ _ _ _ _ H).
Qed.

(** With a match there is a record, and its first record has a field. *)
Lemma assemble_items_nonempty (sql_text table_name : str) :
  Re.finditer (insert_pattern table_name) sql_text <> [] ->
  exists r rs, assemble_items sql_text table_name = r :: rs /\ r <> [].
Proof.
  unfold assemble_items.
  destruct (Re.finditer (insert_pattern table_name) sql_text) as [|g gs];
    [contradiction|]. intros _. simpl.
  destruct (records_of_match_nonempty g) as [r [rs [-> Hr]]].
  simpl. eauto.
Qed.

Lemma list_max_head (x : nat) (xs : list nat) : x <= list_max (x :: xs).
Proof. simpl. lia. Qed.

(** What [parse_sql_inserts] returns when the extractor finds a match. *)
Lemma parse_with_match (sql_text table_name : str) :
  Re.finditer (insert_pattern table_name) sql_text <> [] ->
  exists n items,
    assemble_items sql_text table_name = items
    /\ items <> [] /\ n = list_max (map (@length str) items) /\ 1 <= n
    /\ parse_sql_inserts sql_text table_name
       = Ok {| Pd.columns := placeholder_columns n;
               Pd.rows := map (Pd.pad n) items |}.
Proof.
  intros H. destruct (assemble_items_nonempty _ _ H) as [r [rs [E Hr]]].
  exists (list_max (map (@length str) (r :: rs))), (r :: rs).
  split; [exact E|]. split; [discriminate|]. split; [reflexivity|]. split.
  - pose proof (list_max_head (length r) (map (@length str) rs)).
    destruct r; [contradiction|]. simpl in *. lia.
  - unfold parse_sql_inserts. rewrite E.
    apply materialize_nonempty. discriminate.
Qed.

(** Property X9.  [parse_sql_inserts] never raises, and its table is empty
    exactly when the extractor finds no statement: with a match the table
    has at least one row and one column.  So [load_restaurants], given no
    fallback and a SQL file that is read without error, raises exactly when
    no statement is found in the text read; an error raised by the read is
    the error [load_restaurants] raises. *)
Theorem parse_never_raises (sql_text table_name : str) :
  (exists df,
      parse_sql_inserts sql_text table_name = Ok df
      /\ (Pd.empty df = true
          <-> Re.finditer (insert_pattern table_name) sql_text = [])
      /\ (Pd.empty df = false
          -> 1 <= length (Pd.rows df) /\ 1 <= length (Pd.columns df)))
  /\ (forall stored,
         universal_newlines stored = sql_text ->
         ((exists e, load_restaurants (Some (Ok stored)) None = Raise e)
          <-> Re.finditer (insert_pattern (chars "restaurants")) sql_text = []))
  /\ (forall e, load_restaurants (Some (Raise e)) None = Raise e).
Proof.
  assert (P : forall t,
    exists df, parse_sql_inserts sql_text t = Ok df
      /\ (Pd.empty df = true <-> Re.finditer (insert_pattern t) sql_text = [])
      /\ (Pd.empty df = false
          -> 1 <= length (Pd.rows df) /\ 1 <= length (Pd.columns df))).
  { intros t.
    destruct (Re.finditer (insert_pattern t) sql_text) as [|g gs] eqn:F.
    - exists Pd.empty_frame. split; [apply parse_no_match, F|].
      split; [split; reflexivity | discriminate].
    - assert (F' : Re.finditer (insert_pattern t) sql_text <> [])
        by (rewrite F; discriminate).
      destruct (parse_with_match _ _ F') as [n [items [_ [Hi [_ [Hn ->]]]]]].
      eexists. split; [reflexivity|].
      assert (Hr : 1 <= length (map (Pd.pad n) items)).
      { rewrite length_map. destruct items; [contradiction | simpl; lia]. }
      assert (Hc : 1 <= length (placeholder_columns n))
        by (rewrite placeholder_columns_length; exact Hn).
      assert (E : Pd.empty {| Pd.columns := placeholder_columns n;
                              Pd.rows := map (Pd.pad n) items |} = false).
      { unfold Pd.empty. cbn [Pd.columns Pd.rows].
        apply orb_false_intro; apply Nat.eqb_neq; lia. }
      split; [rewrite E; split; discriminate|]. intros _. split; assumption. }
  split; [apply P|]. split; [|reflexivity].
  intros stored Hs.
  destruct (P (chars "restaurants")) as [df [Hp [He Hr]]].
  unfold load_restaurants, read_text. cbn [bind]. rewrite Hs, Hp. cbn [bind].
  destruct (Pd.empty df) eqn:E.
  - split; [intros _; apply He; reflexivity | intros _; eauto].
  - split.
    + intros [e H]. destruct (4 <=? snd (Pd.shape df)); discriminate H.
    + intros F. apply He in F. discriminate F.
Qed.

Lemma parse_never_raises_witness :
  (exists e,
      load_restaurants
        (Some (Ok (chars "INSERT INTO users VALUES (9,'Z');" ++ [Chr.cr; Chr.lf])))
        None = Raise e)
  /\ load_restaurants (Some (Raise (UnicodeDecodeError (chars "invalid start byte"))))
       None
     = Raise (UnicodeDecodeError (chars "invalid start byte")).
Proof.
  destruct (parse_never_raises
              (chars "INSERT INTO users VALUES (9,'Z');" ++ [Chr.lf])
              (chars "restaurants")) as [_ [H2 H3]].
  split; [|apply H3].
  apply (H2 (chars "INSERT INTO users VALUES (9,'Z');" ++ [Chr.cr; Chr.lf]));
    reflexivity.
Defined.

Lemma str_eqb_eq (a b : str) : Str.eqb a b = true <-> a = b.
Proof.
  revert b. induction a as [|x a IH]; intros [|y b]; split; intros H;
    try reflexivity; try discriminate H.
  - rewrite str_eqb_cons in H. apply andb_true_iff in H.
    destruct H as [H1 H2]. apply Ascii.eqb_eq in H1. apply IH in H2.
    congruence.
  - injection H as -> ->. rewrite str_eqb_cons, Ascii.eqb_refl.
    apply IH. reflexivity.
Qed.

Lemma chars_inj (a b : string) : chars a = chars b -> a = b.
Proof.
  unfold chars. intros H. apply (f_equal string_of_list_ascii) in H.
  rewrite !string_of_list_ascii_of_string in H. exact H.
Qed.

Lemma to_uint_nonnil (n : nat) : Nat.to_uint n <> Decimal.Nil.
Proof.
  rewrite <- (DecimalNat.Unsigned.of_to n) at 1.
  rewrite DecimalNat.Unsigned.to_of. apply DecimalFacts.unorm_nonnil.
Qed.

(** Decimal numerals of different numbers differ. *)
Lemma of_nat_inj (n m : nat) : Str.of_nat n = Str.of_nat m -> n = m.
Proof.
  unfold Str.of_nat. intros H. apply chars_inj in H.
  apply (f_equal NilZero.uint_of_string) in H.
  rewrite !NilZero.usu in H by apply to_uint_nonnil.
  injection H as H. apply DecimalNat.Unsigned.to_uint_inj, H.
Qed.

Lemma placeholder_inj (i j : nat) :
  chars "col_" ++ Str.of_nat (i + 1) = chars "col_" ++ Str.of_nat (j + 1) ->
  i = j.
Proof. intros H. apply app_inv_head, of_nat_inj in H. lia. Qed.

Lemma NoDup_map_injective (A B : Type) (f : A -> B) (l : list A) :
  (forall x y, f x = f y -> x = y) -> NoDup l -> NoDup (map f l).
Proof.
  intros Hf Hl. induction Hl as [|x l Hx Hl IH]; simpl; constructor; auto.
  intros H. apply in_map_iff in H. destruct H as [y [E Hy]].
  apply Hf in E. subst y. contradiction.
Qed.

Lemma placeholder_columns_nodup (n : nat) : NoDup (placeholder_columns n).
Proof.
  unfold placeholder_columns. apply NoDup_map_injective.
  - apply placeholder_inj.
  - apply seq_NoDup.
Qed.

Lemma placeholder_columns_from_4 (m : nat) :
  placeholder_columns (4 + m)
  = [chars "col_1"; chars "col_2"; chars "col_3"; chars "col_4"]
    ++ map (fun i => chars "col_" ++ Str.of_nat (i + 1)) (seq 4 m).
Proof. reflexivity. Qed.

(** The renaming leaves the labels after the fourth as they are. *)
Lemma rename_placeholders (m : nat) (rows : list (list (option str))) :
  let df := {| Pd.columns := placeholder_columns (4 + m); Pd.rows := rows |} in
  Pd.rename (restaurant_columns df) df
  = {| Pd.columns := restaurant_labels
                     ++ map (fun i => chars "col_" ++ Str.of_nat (i + 1))
                          (seq 4 m);
       Pd.rows := rows |}.
Proof.
  intros df. unfold Pd.rename. f_equal.
  assert (D : restaurant_columns df
              = [(chars "col_1", chars "restaurant_id");
                 (chars "col_2", chars "restaurant_name");
                 (chars "col_3", chars "cuisine");
                 (chars "col_4", chars "rating")]) by reflexivity.
  rewrite D. unfold df. cbn [Pd.columns].
  rewrite placeholder_columns_from_4, map_app. f_equal.
  rewrite <- (map_id (map _ (seq 4 m))) at 2. rewrite !map_map.
  apply map_ext_in. intros i Hi. apply in_seq in Hi.
  assert (N : forall j, j < 4 ->
    Str.eqb (chars "col_" ++ Str.of_nat (i + 1))
            (chars "col_" ++ Str.of_nat (j + 1)) = false).
  { intros j Hj. destruct (Str.eqb _ _) eqn:E; [|reflexivity].
    apply str_eqb_eq, placeholder_inj in E. lia. }
  cbn [Pd.dict_get].
  change (chars "col_1") with (chars "col_" ++ Str.of_nat (0 + 1)).
  change (chars "col_2") with (chars "col_" ++ Str.of_nat (1 + 1)).
  change (chars "col_3") with (chars "col_" ++ Str.of_nat (2 + 1)).
  change (chars "col_4") with (chars "col_" ++ Str.of_nat (3 + 1)).
  rewrite !N by lia. reflexivity.
Qed.

(** [load_restaurants] on a file whose text parses to a table with
    placeholder labels, a row and a column. *)
Lemma load_of_parsed (stored sql_text : str) (n : nat)
  (rows : list (list (option str))) :
  universal_newlines stored = sql_text ->
  parse_sql_inserts sql_text (chars "restaurants")
  = Ok {| Pd.columns := placeholder_columns n; Pd.rows := rows |} ->
  1 <= n -> rows <> [] ->
  load_restaurants (Some (Ok stored)) None
  = Ok {| Pd.columns :=
            if 4 <=? n
            then restaurant_labels ++ skipn 4 (placeholder_columns n)
            else placeholder_columns n;
          Pd.rows := rows |}.
Proof.
  intros Hs Hp Hn Hr. unfold load_restaurants, read_text. cbn [bind].
  rewrite Hs, Hp. cbn [bind].
  assert (E : Pd.empty {| Pd.columns := placeholder_columns n;
                          Pd.rows := rows |} = false).
  { unfold Pd.empty. cbn [Pd.columns Pd.rows].
    rewrite placeholder_columns_length.
    apply orb_false_intro; apply Nat.eqb_neq; [lia|].
    destruct rows; [contradiction | simpl; lia]. }
  rewrite E. unfold Pd.shape. cbn [snd Pd.columns Pd.rows].
  rewrite placeholder_columns_length.
  destruct (4 <=? n) eqn:E4; [|reflexivity].
  apply Nat.leb_le in E4.
  replace n with (4 + (n - 4)) by lia.
  rewrite rename_placeholders, placeholder_columns_from_4. reflexivity.
Qed.

(** Property X10.  The labels of a parsed table are pairwise distinct, and
    [load_restaurants] only relabels: when the table has four columns or
    more, the first four become [restaurant_id], [restaurant_name],
    [cuisine] and [rating] and every later column keeps its label; with
    fewer columns all labels stay.  The rows are untouched either way.
    The table is the parse of the text read from the SQL file. *)
Theorem load_restaurants_only_relabels (stored sql_text : str)
  (df : Pd.DataFrame) :
  universal_newlines stored = sql_text ->
  parse_sql_inserts sql_text (chars "restaurants") = Ok df ->
  Pd.empty df = false ->
  NoDup (Pd.columns df)
  /\ load_restaurants (Some (Ok stored)) None
     = Ok {| Pd.columns :=
               if 4 <=? length (Pd.columns df)
               then restaurant_labels ++ skipn 4 (Pd.columns df)
               else Pd.columns df;
             Pd.rows := Pd.rows df |}.
Proof.
  intros Hs Hp He.
  destruct (Re.finditer (insert_pattern (chars "restaurants")) sql_text)
    as [|g gs] eqn:F.
  { rewrite (parse_no_match _ _ F) in Hp. injection Hp as <-. discriminate He. }
  assert (F' : Re.finditer (insert_pattern (chars "restaurants")) sql_text <> [])
    by (rewrite F; discriminate).
  destruct (parse_with_match _ _ F') as [n [items [_ [Hi [_ [Hn Hq]]]]]].
  pose proof Hq as Hq'. rewrite Hp in Hq'. injection Hq' as ->.
  cbn [Pd.columns Pd.rows]. split; [apply placeholder_columns_nodup|].
  rewrite placeholder_columns_length.
  apply (load_of_parsed stored sql_text n _ Hs Hq Hn).
  destruct items; [contradiction | discriminate].
Qed.

Lemma load_restaurants_only_relabels_witness :
  load_restaurants
    (Some (Ok (chars "INSERT INTO restaurants VALUES (1,'A','Cafe',4.1,'x',7);"
               ++ [Chr.cr; Chr.lf])))
    None
  = Ok {| Pd.columns := restaurant_labels ++ [chars "col_5"; chars "col_6"];
          Pd.rows := [[Some (chars "1"); Some (chars "A"); Some (chars "Cafe");
                       Some (chars "4.1"); Some (chars "x"); Some (chars "7")]]
       |}.
Proof.
  apply (load_restaurants_only_relabels
           (chars "INSERT INTO restaurants VALUES (1,'A','Cafe',4.1,'x',7);"
            ++ [Chr.cr; Chr.lf])
           (chars "INSERT INTO restaurants VALUES (1,'A','Cafe',4.1,'x',7);"
            ++ [Chr.lf])
           {| Pd.columns := placeholder_columns 6;
              Pd.rows := [[Some (chars "1"); Some (chars "A");
                           Some (chars "Cafe"); Some (chars "4.1");
                           Some (chars "x"); Some (chars "7")]] |});
    vm_compute; reflexivity.
Defined.

(** * A dump written and read back *)

Lemma join_glue (sep : str) (l : list str) :
  l <> [] -> join sep l = glue l (repeat sep (length l - 1)).
Proof.
  induction l as [|x l IH]; intros H; [contradiction|].
  destruct l as [|y l']; [reflexivity|].
  rewrite join_cons, IH by discriminate. cbn [length].
  replace (S (S (length l')) - 1) with (S (S (length l') - 1)) by lia.
  reflexivity.
Qed.

Lemma clean_fields_plain (fs : list field) :
  forallb (fun f => plain_value (content f)) fs = true ->
  map clean_part (map (fun f => Str.strip (content f)) fs) = map content fs.
Proof.
  intros H. rewrite map_map. apply map_ext_in. intros f Hf.
  rewrite forallb_forall in H.
  destruct (plain_value_kept _ (H f Hf)) as [E1 E2]. rewrite E1. exact E2.
Qed.

Lemma row_ok_parts (fs : list field) :
  row_ok fs = true ->
  fs <> [] /\ forallb field_ok fs = true
  /\ forallb (fun f => plain_value (content f)) fs = true
  /\ occurs Chr.rparen (render_record fs) = false.
Proof.
  unfold row_ok. intros H.
  repeat (apply andb_true_iff in H; let H' := fresh "H" in destruct H as [H H']).
  repeat split; auto.
  - destruct fs; [discriminate H | discriminate].
  - apply negb_true_iff. assumption.
Qed.

Lemma render_values_stripped (rows : list (list field)) :
  Str.strip (render_values rows) = render_values rows.
Proof.
  apply strip_with_id; unfold render_values; [reflexivity|].
  unfold no_trail.
  change (Chr.lparen :: ?x ++ [Chr.rparen])
    with ((Chr.lparen :: x) ++ [Chr.rparen]).
  rewrite rev_app_distr. reflexivity.
Qed.

Lemma split_rendered_values (rows : list (list field)) :
  rows <> [] -> forallb row_ok rows = true ->
  split_records (render_values rows) = map render_record rows.
Proof.
  intros Hne Hok. unfold render_values.
  rewrite split_records_wrapped. unfold Re.split.
  rewrite join_glue by (destruct rows; [contradiction | discriminate]).
  rewrite split_glue.
  - destruct rows; [contradiction | reflexivity].
  - rewrite repeat_length, length_map. destruct rows; [contradiction|].
    simpl. lia.
  - apply forallb_forall. intros r Hr. apply in_map_iff in Hr.
    destruct Hr as [fs [<- Hfs]]. rewrite forallb_forall in Hok.
    destruct (row_ok_parts _ (Hok fs Hfs)) as [_ [_ [_ H]]].
    rewrite H. reflexivity.
  - apply Forall_forall. intros sep Hs. apply repeat_spec in Hs. subst sep.
    exact (boundary_intro [] eq_refl).
Qed.

Lemma assemble_rendered_dump (rows : list (list field)) :
  rows <> [] -> forallb row_ok rows = true ->
  assemble_items (render_dump rows) (chars "restaurants") = contents rows.
Proof.
  intros Hne Hok. unfold assemble_items, render_dump, statement.
  rewrite (finditer_single (chars "restaurants") _ (render_values rows) []).
  - cbn [flat_map]. rewrite app_nil_r. unfold records_of_match.
    rewrite render_values_stripped, split_rendered_values by assumption.
    unfold contents. rewrite map_map. apply map_ext_in. intros fs Hfs.
    rewrite forallb_forall in Hok.
    destruct (row_ok_parts _ (Hok fs Hfs)) as [H1 [H2 [H3 _]]].
    unfold clean_record, split_sql_values. rewrite scan_record by assumption.
    apply clean_fields_plain, H3.
  - apply insert_pattern_found; reflexivity.
Qed.

(** Property X11.  A dump written and read back: the usual header, the
    records between parentheses with [),(] between them, every value
    between quotes with its quotes doubled (or bare), and a final
    semicolon.  When every row has a field, no value begins or ends with
    white space or a quote, and no record holds a close-paren, the parser
    returns exactly the values, row by row, as a table as wide as the
    longest row; values may hold commas, semicolons, open-parens and
    quotes. *)
Theorem dump_round_trip (rows : list (list field)) :
  rows <> [] -> forallb row_ok rows = true ->
  assemble_items (render_dump rows) (chars "restaurants") = contents rows
  /\ parse_sql_inserts (render_dump rows) (chars "restaurants")
     = Ok {| Pd.columns :=
               placeholder_columns (list_max (map (@length str) (contents rows)));
             Pd.rows :=
               map (Pd.pad (list_max (map (@length str) (contents rows))))
                   (contents rows) |}.
Proof.
  intros Hne Hok. split; [apply assemble_rendered_dump; assumption|].
  unfold parse_sql_inserts. rewrite assemble_rendered_dump by assumption.
  apply materialize_nonempty. unfold contents.
  destruct rows; [contradiction | discriminate].
Qed.

Lemma dump_round_trip_witness :
  render_dump [[Bare (chars "1"); Quoted Chr.squote (chars "Tom's; (open, late")];
               [Bare (chars "2"); Quoted Chr.squote (chars "B"); Bare (chars "4.5")]]
  = chars "INSERT INTO restaurants VALUES (1,'Tom''s; (open, late'),(2,'B',4.5);"
  /\ parse_sql_inserts
       (chars "INSERT INTO restaurants VALUES (1,'Tom''s; (open, late'),(2,'B',4.5);")
       (chars "restaurants")
     = Ok {| Pd.columns := [chars "col_1"; chars "col_2"; chars "col_3"];
             Pd.rows := [[Some (chars "1"); Some (chars "Tom's; (open, late");
                          None];
                         [Some (chars "2"); Some (chars "B");
                          Some (chars "4.5")]] |}.
Proof.
  split; [reflexivity|].
  apply (dump_round_trip
           [[Bare (chars "1"); Quoted Chr.squote (chars "Tom's; (open, late")];
            [Bare (chars "2"); Quoted Chr.squote (chars "B");
             Bare (chars "4.5")]]);
    [discriminate | reflexivity].
Defined.

(** Property X12.  [load_restaurants] without a fallback, on a file whose
    text, once read with its line ends translated, is a written dump: under
    the conditions of the round trip it returns the values row by row,
    short rows filled with missing cells, the first four columns labelled
    as restaurant columns when the longest row has four values or more.  A
    line end stored as carriage return and line feed inside a value comes
    out as a line feed. *)
Theorem load_restaurants_reads_written_dump (stored : str)
  (rows : list (list field)) :
  universal_newlines stored = render_dump rows ->
  rows <> [] -> forallb row_ok rows = true ->
  load_restaurants (Some (Ok stored)) None
  = Ok {| Pd.columns :=
            if 4 <=? list_max (map (@length str) (contents rows))
            then restaurant_labels
                 ++ skipn 4 (placeholder_columns
                               (list_max (map (@length str) (contents rows))))
            else placeholder_columns
                   (list_max (map (@length str) (contents rows)));
          Pd.rows :=
            map (Pd.pad (list_max (map (@length str) (contents rows))))
                (contents rows) |}.
Proof.
  intros Hs Hne Hok.
  assert (Hc : contents rows <> [])
    by (unfold contents; destruct rows; [contradiction | discriminate]).
  apply (load_of_parsed stored (render_dump rows)).
  - exact Hs.
  - unfold parse_sql_inserts. rewrite assemble_rendered_dump by assumption.
    apply materialize_nonempty, Hc.
  - destruct rows as [|fs rows']; [contradiction|].
    simpl in Hok. apply andb_true_iff in Hok. destruct Hok as [Hfs _].
    destruct (row_ok_parts _ Hfs) as [Hf _].
    destruct fs as [|f fs']; [contradiction|].
    pose proof (list_max_head (length (map content (f :: fs')))
                  (map (@length str) (contents rows'))) as M.
    unfold contents in *. cbn [map length] in *. lia.
  - intros H. apply map_eq_nil in H. contradiction.
Qed.

Lemma load_restaurants_reads_written_dump_witness :
  load_restaurants
    (Some (Ok (chars "INSERT INTO restaurants VALUES (1,'a" ++ [Chr.cr; Chr.lf]
               ++ chars "b','Cafe',4.1),(2,'Place, B');")))
    None
  = Ok {| Pd.columns := restaurant_labels;
          Pd.rows := [[Some (chars "1"); Some (chars "a" ++ [Chr.lf] ++ chars "b");
                       Some (chars "Cafe"); Some (chars "4.1")];
                      [Some (chars "2"); Some (chars "Place, B"); None; None]]
       |}.
Proof.
  apply (load_restaurants_reads_written_dump
           (chars "INSERT INTO restaurants VALUES (1,'a" ++ [Chr.cr; Chr.lf]
            ++ chars "b','Cafe',4.1),(2,'Place, B');")
           [[Bare (chars "1");
             Quoted Chr.squote (chars "a" ++ [Chr.lf] ++ chars "b");
             Quoted Chr.squote (chars "Cafe"); Bare (chars "4.1")];
            [Bare (chars "2"); Quoted Chr.squote (chars "Place, B")]]);
    [reflexivity | discriminate | reflexivity].
Defined.

(** * Checks on concrete inputs *)

Example split_plain :
  split_sql_values (chars "1,'Pizza Place','Italian',4.5")
  = [chars "1"; chars "Pizza Place"; chars "Italian"; chars "4.5"].
Proof. reflexivity. Qed.

(** Keywords in lower case, a table name in backticks and a value list over
    several lines. *)
Example lower_case_backticks_multiline :
  assemble_items
    (chars "insert  into `Restaurants` values" ++ [ascii_of_nat 10]
       ++ chars "(1,'A')," ++ [ascii_of_nat 10] ++ chars "  (2,'B') ;")
    (chars "restaurants")
  = [[chars "1"; chars "A"]; [chars "2"; chars "B"]].
Proof. vm_compute. reflexivity. Qed.

(** A value list that is not wrapped in parentheses is one record. *)
Example unwrapped_value_list :
  assemble_items (chars "INSERT INTO restaurants VALUES 1,'A';")
    (chars "restaurants")
  = [[chars "1"; chars "A"]].
Proof. vm_compute. reflexivity. Qed.

(** With fewer than four columns the placeholder labels stay. *)
Example narrow_table_keeps_placeholders :
  load_restaurants (Some (Ok (chars "INSERT INTO restaurants VALUES (1,'A');")))
    None
  = Ok {| Pd.columns := [chars "col_1"; chars "col_2"];
          Pd.rows := [[Some (chars "1"); Some (chars "A")]] |}.
Proof. vm_compute. reflexivity. Qed.

Example missing_sql_file :
  load_restaurants None None
  = Raise (FileNotFoundError (chars "Restaurants SQL not found")).
Proof. reflexivity. Qed.
